(** * pygn_server: request loop, command handlers and engine pool

    A shallow embedding of [pygn_server.py], the driver process of the
    Emacs chess mode.  The program is a thin layer over python-chess, a UCI
    engine, [argparse]/[shlex] and [re]; the libraries are interfaces here
    (type classes), the program's own text processing and control flow are
    definitions translated from the source. *)

From Stdlib Require Import String Ascii.
From Stdlib Require Import List NArith ZArith Bool Arith Lia.
Import ListNotations.

Set Implicit Arguments.

(** ** Python text

    A Python [str] is a sequence of Unicode code points. *)

Definition pychar := N.
Definition pystr := list pychar.

Module Utf8.

(** Decoder used only to write the program's literals the way the source
    shows them: the bytes of a Rocq string literal are UTF-8. *)
Fixpoint decode (need : nat) (acc : N) (bs : list N) : pystr :=
  match bs with
  | [] => []
  | b :: bs' =>
      match need with
      | O =>
          if (b <? 128)%N then b :: decode 0 0 bs'
          else if (b <? 224)%N then decode 1 (b - 192) bs'
          else if (b <? 240)%N then decode 2 (b - 224) bs'
          else decode 3 (b - 240) bs'
      | S O => (acc * 64 + (b - 128))%N :: decode 0 0 bs'
      | S n => decode n (acc * 64 + (b - 128)) bs'
      end
  end.

End Utf8.

Definition py (s : string) : pystr :=
  Utf8.decode 0 0 (map N_of_ascii (list_ascii_of_string s)).

Arguments py : simpl never.

Definition str_eqb (a b : pystr) : bool :=
  if list_eq_dec N.eq_dec a b then true else false.

(** Character constants of the program. *)
Definition NL : pychar := 10%N.        (* newline *)
Definition BACKSLASH : pychar := 92%N.
Definition LOWER_N : pychar := 110%N.
Definition COLON : pychar := 58%N.
Definition DASH : pychar := 45%N.
Definition SPACE : pychar := 32%N.

(** ** The [re] module, as far as the program's patterns go *)

Module Re.

(** [\s] on [str] patterns: the characters for which [str.isspace] holds. *)
Definition space (c : pychar) : bool :=
  ((9 <=? c) && (c <=? 13) || (28 <=? c) && (c <=? 32)
   || (c =? 133) || (c =? 160) || (c =? 5760)
   || (8192 <=? c) && (c <=? 8202)
   || (c =? 8232) || (c =? 8233) || (c =? 8239) || (c =? 8287)
   || (c =? 12288))%N.

(** [\S] *)
Definition nonspace (c : pychar) : bool := negb (space c).

(** [.] without DOTALL: anything but a newline. *)
Definition dot (c : pychar) : bool := negb (c =? NL)%N.

(** The pattern syntax the program uses.  Every repetition in the source
    ([\S+], [\s+], [.*], [.*?]) is over a one-character class. *)
Inductive regex : Type :=
| Chr (c : pychar)
| Cls (p : pychar -> bool)
| Star (p : pychar -> bool)
| StarLazy (p : pychar -> bool)
| Seq (r1 r2 : regex)
| Group (n : nat) (r : regex)
| BeginString
| EndString
| BeginLine
| Empty.

(** [p+] *)
Definition Plus (p : pychar -> bool) : regex := Seq (Cls p) (Star p).

(** a literal run of characters *)
Fixpoint Lit (s : pystr) : regex :=
  match s with
  | [] => Empty
  | [c] => Chr c
  | c :: s' => Seq (Chr c) (Lit s')
  end.

(** A position in the subject: the text before it (most recent character
    first), the text after it, and the groups captured so far. *)
Record mstate : Type := MState {
  consumed : pystr;
  rest : pystr;
  groups : list (nat * pystr)
}.

Definition step (c : pychar) (t : pystr) (st : mstate) : mstate :=
  MState (c :: consumed st) t (groups st).

Definition at_ (pre suf : pystr) (st : mstate) : mstate :=
  MState pre suf (groups st).

(** text consumed between two positions of one scan *)
Definition between (st st' : mstate) : pystr :=
  rev (firstn (length (consumed st') - length (consumed st)) (consumed st')).

Definition set_group (n : nat) (s : pystr) (st : mstate) : mstate :=
  MState (consumed st) (rest st) ((n, s) :: groups st).

Fixpoint group_lookup (n : nat) (gs : list (nat * pystr)) : option pystr :=
  match gs with
  | [] => None
  | (m, s) :: gs' => if Nat.eqb m n then Some s else group_lookup n gs'
  end.

(** [m.group(n)] for a group that took part in the match *)
Definition group (st : mstate) (n : nat) : pystr :=
  match group_lookup n (groups st) with Some s => s | None => [] end.

Section Matcher.

Variable R : Type.

(** Greedy star: take as many as possible, give back one at a time. *)
Fixpoint star_greedy (p : pychar -> bool) (k : pystr -> pystr -> option R)
         (pre suf : pystr) : option R :=
  match suf with
  | c :: suf' =>
      if p c then
        match star_greedy p k (c :: pre) suf' with
        | Some r => Some r
        | None => k pre suf
        end
      else k pre suf
  | [] => k pre suf
  end.

(** Lazy star: try the continuation first, take one more on failure. *)
Fixpoint star_lazy (p : pychar -> bool) (k : pystr -> pystr -> option R)
         (pre suf : pystr) : option R :=
  match k pre suf with
  | Some r => Some r
  | None =>
      match suf with
      | c :: suf' => if p c then star_lazy p k (c :: pre) suf' else None
      | [] => None
      end
  end.

(** Backtracking matcher in continuation-passing style. *)
Fixpoint run (r : regex) (k : mstate -> option R) (st : mstate) : option R :=
  match r with
  | Chr c =>
      match rest st with
      | x :: t => if (x =? c)%N then k (step x t st) else None
      | [] => None
      end
  | Cls p =>
      match rest st with
      | x :: t => if p x then k (step x t st) else None
      | [] => None
      end
  | Star p =>
      star_greedy p (fun pre suf => k (at_ pre suf st)) (consumed st) (rest st)
  | StarLazy p =>
      star_lazy p (fun pre suf => k (at_ pre suf st)) (consumed st) (rest st)
  | Seq r1 r2 => run r1 (run r2 k) st
  | Group n r1 => run r1 (fun st' => k (set_group n (between st st') st')) st
  | BeginString =>
      match consumed st with [] => k st | _ :: _ => None end
  | EndString =>
      match rest st with [] => k st | _ :: _ => None end
  | BeginLine =>
      match consumed st with
      | [] => k st
      | c :: _ => if (c =? NL)%N then k st else None
      end
  | Empty => k st
  end.

End Matcher.

(** What one successful pass over a pattern does to the position,
    whatever the order in which the matcher tries things. *)
Fixpoint sem (r : regex) (st st' : mstate) : Prop :=
  match r with
  | Chr c => exists t, rest st = c :: t /\ st' = step c t st
  | Cls p => exists x t, rest st = x :: t /\ p x = true /\ st' = step x t st
  | Star p | StarLazy p =>
      exists a b,
        rest st = a ++ b /\ forallb p a = true /\
        st' = at_ (rev a ++ consumed st) b st
  | Seq r1 r2 => exists mid, sem r1 st mid /\ sem r2 mid st'
  | Group n r1 =>
      exists st1, sem r1 st st1 /\ st' = set_group n (between st st1) st1
  | BeginString => consumed st = [] /\ st' = st
  | EndString => rest st = [] /\ st' = st
  | BeginLine => (consumed st = [] \/ exists t, consumed st = NL :: t) /\ st' = st
  | Empty => st' = st
  end.

(** Match anchored at a position; [must_advance] refuses the empty match
    there (the matcher backtracks over it). *)
Definition match_at (must_advance : bool) (r : regex) (pre suf : pystr)
  : option mstate :=
  run r
      (fun st =>
         if must_advance && (length (consumed st) =? length pre)%nat
         then None else Some st)
      (MState pre suf []).

(** [pattern.search]: leftmost position with a match. *)
Fixpoint search_from (r : regex) (pre suf : pystr) : option mstate :=
  match match_at false r pre suf with
  | Some st => Some st
  | None =>
      match suf with
      | c :: suf' => search_from r (c :: pre) suf'
      | [] => None
      end
  end.

Definition search (r : regex) (s : pystr) : option mstate :=
  search_from r [] s.

(** Replacement templates: literal text and group references ([\1]). *)
Inductive titem : Type :=
| TLit (s : pystr)
| TGroup (n : nat).

Definition expand (tpl : list titem) (st : mstate) : pystr :=
  flat_map (fun t => match t with TLit s => s | TGroup n => group st n end) tpl.

(** [re.sub(pattern, repl, s)]: all non-overlapping matches, left to
    right.  [skip] counts the characters of the last match still to be
    passed over; after an empty match the same position is tried once more
    for a non-empty one. *)
Fixpoint sub_walk (r : regex) (tpl : list titem) (skip : nat)
         (pre suf : pystr) : pystr :=
  match skip with
  | S n =>
      match suf with
      | c :: suf' => sub_walk r tpl n (c :: pre) suf'
      | [] => []
      end
  | O =>
      match match_at false r pre suf with
      | Some st =>
          let len := (length (consumed st) - length pre)%nat in
          expand tpl st ++
          match len with
          | S n =>
              match suf with
              | c :: suf' => sub_walk r tpl n (c :: pre) suf'
              | [] => []
              end
          | O =>
              match suf with
              | [] => []
              | c :: suf' =>
                  match match_at true r pre suf with
                  | Some st2 =>
                      expand tpl st2 ++
                      sub_walk r tpl
                        (length (consumed st2) - length pre - 1)
                        (c :: pre) suf'
                  | None => c :: sub_walk r tpl 0 (c :: pre) suf'
                  end
              end
          end
      | None =>
          match suf with
          | c :: suf' => c :: sub_walk r tpl 0 (c :: pre) suf'
          | [] => []
          end
      end
  end.

Definition sub (r : regex) (tpl : list titem) (s : pystr) : pystr :=
  sub_walk r tpl 0 [] s.

End Re.

(** ** Python dictionaries keyed by text

    Insertion-ordered, unique keys; assignment to an existing key replaces
    the value in place. *)

Module Dict.

Section Dict.

Variable V : Type.

Definition t := list (pystr * V).

Fixpoint get (k : pystr) (d : t) : option V :=
  match d with
  | [] => None
  | (k', v) :: d' => if str_eqb k' k then Some v else get k d'
  end.

(** [k in d] *)
Definition mem (k : pystr) (d : t) : bool :=
  match get k d with Some _ => true | None => false end.

(** [d[k] = v] *)
Fixpoint set (k : pystr) (v : V) (d : t) : t :=
  match d with
  | [] => [(k, v)]
  | (k', v') :: d' =>
      if str_eqb k' k then (k', v) :: d' else (k', v') :: set k v d'
  end.

Definition keys (d : t) : list pystr := map fst d.

(** [d.values()], in insertion order *)
Definition values (d : t) : list V := map snd d.

End Dict.

End Dict.

(** ** Collaborators *)

(** python-chess: PGN reading, boards, rendering. *)
Class ChessLib : Type := {
  Game : Type;
  Board : Type;
  Move : Type;
  (** [chess.pgn.read_game(io.StringIO(text))]; [None] at end of input *)
  read_game : pystr -> option Game;
  (** what the reader logged while it read the game, one record for each
      entry of [game.errors] (an illegal or ambiguous move, ...); the
      server configures no logging, so the records go to the error
      stream *)
  game_errors : Game -> list pystr;
  (** [game.board()]; [None] when it raises [ValueError]: the start
      position or the variant the headers name is not a valid one *)
  game_board : Game -> option Board;
  (** [game.mainline_moves()] *)
  mainline_moves : Game -> list Move;
  (** [board.push(move)] *)
  board_push : Board -> Move -> Board;
  (** [board.fen()] *)
  board_fen : Board -> pystr;
  (** [chess.svg.board(board=, lastmove=, size=)]; no last move is the
      value [False] in the source *)
  svg_board : Board -> option Move -> Z -> pystr;
  (** [board.unicode(borders=True)] *)
  board_unicode : Board -> pystr;
  (** [game.accept(chess.pgn.StringExporter(columns=None, headers=False,
      variations=False, comments=False))] *)
  export_movetext : Game -> pystr
}.

(** The Unicode database: [\d] matches the decimal digits (category Nd). *)
Class UnicodeDb : Type := {
  decimal : pychar -> bool
}.

(** [chess.engine]: UCI engine subprocesses.  Every call acts on the
    outside world; [None]/[false] stands for a raised exception. *)
Class EngineLib (C : ChessLib) : Type := {
  World : Type;
  Handle : Type;
  Info : Type;
  (** [chess.engine.SimpleEngine.popen_uci(path, timeout=None)] *)
  popen_uci : pystr -> World -> option Handle * World;
  (** [engine.ping()] *)
  ping : Handle -> World -> bool * World;
  (** [engine.analyse(board, chess.engine.Limit(depth=d))] *)
  analyse : Handle -> Board -> Z -> World -> option Info * World;
  (** [str(uci_info["score"])]; [None] when the key is missing *)
  info_score : Info -> option pystr;
  (** [engine.quit()] *)
  quit : Handle -> World -> bool * World;
  (** whether a thread of the library still runs an engine: every engine
      has a thread of its own, which is not a daemon and lasts as long as
      the engine process *)
  engine_threads : World -> bool
}.

(** ** Options *)

(** [args]: every option is declared with [nargs=1], so each attribute is
    a one-element list; the record holds that element, which is what the
    handlers read with [[0]]. *)
Record Namespace : Type := {
  pixels : Z;
  board_format : pystr;
  engine : pystr;
  depth : Z
}.

Inductive argtype : Type := TypeInt | TypeStr.
Inductive argval : Type := VInt (z : Z) | VStr (s : pystr).

Record Argument : Type := {
  flags : list pystr;
  nargs : nat;
  type_ : argtype;
  default : list argval
}.

Definition generate_argparser : list Argument :=
  [ {| flags := [py "-pixels"; py "--pixels"]; nargs := 1;
       type_ := TypeInt; default := [VInt 400] |};
    {| flags := [py "-board_format"; py "--board_format"]; nargs := 1;
       type_ := TypeStr; default := [VStr (py "svg")] |};
    {| flags := [py "-engine"; py "--engine"]; nargs := 1;
       type_ := TypeStr; default := [VStr (py "stockfish")] |};
    {| flags := [py "-depth"; py "--depth"]; nargs := 1;
       type_ := TypeInt; default := [VInt 20] |} ].

(** Outcome of [argparser.parse_args(words)]: a namespace, or an exit
    ([SystemExit]) after argparse wrote to the two streams. *)
Inductive parsed : Type :=
| Parsed (ns : Namespace)
| Exited (out err : list pystr).

Class ArgLib : Type := {
  (** [shlex.split(text)]; [None] when it raises [ValueError] *)
  shlex_split : pystr -> option (list pystr);
  (** [argparser.parse_args(words)] *)
  parse_args : list Argument -> list pystr -> parsed
}.

(** ** The server *)

Inductive exn : Type :=
| AttributeError        (* attribute access on [None] *)
| ValueError            (* raised by [game.board()] *)
| KeyError              (* missing dictionary key *)
| EngineError           (* raised by a [chess.engine] call *)
| SystemExit (code : Z).

Inductive res (A : Type) : Type :=
| Ret (a : A)
| Raise (e : exn).

Arguments Ret {A} a.
Arguments Raise {A} e.

(** A value a callback returns: text, or [None] when it falls off its end. *)
Inductive pyval : Type :=
| PStr (s : pystr)
| PNone.

(** [str(v)], as [print] applies it *)
Definition py_str (v : pyval) : pystr :=
  match v with
  | PStr s => s
  | PNone => py "None"
  end.

Inductive hook : Type := HookCleanup.

Inductive ctl : Type := Break | Continue.

Definition __version__ : pystr := py "0.50".

Section Server.

Context {C : ChessLib} {U : UnicodeDb} {E : EngineLib C} {A : ArgLib}.

(** Calls made to the engine library, oldest first. *)
Inductive event : Type :=
| EvPopen (path : pystr) (r : option Handle)
| EvPing (h : Handle) (ok : bool)
| EvAnalyse (h : Handle) (ok : bool)
| EvQuit (h : Handle) (ok : bool).

(** Process state: the module variable [ENGINES], what was printed to the
    two streams (one entry per [print]), the registered exit hooks, and
    the world the engines live in with the log of calls made to it. *)
Record state : Type := State {
  ENGINES : Dict.t Handle;
  stdout : list pystr;
  stderr : list pystr;
  atexit : list hook;
  world : World;
  trace : list event
}.

Definition M (T : Type) : Type := state -> res T * state.

Definition ret {T} (x : T) : M T := fun s => (Ret x, s).

Definition raise {T} (e : exn) : M T := fun s => (Raise e, s).

Definition bind {T T'} (m : M T) (f : T -> M T') : M T' :=
  fun s =>
    match m s with
    | (Ret x, s') => f x s'
    | (Raise e, s') => (Raise e, s')
    end.

(** [try: m  except: h] with a bare [except] *)
Definition try_except {T} (m : M T) (h : M T) : M T :=
  fun s =>
    match m s with
    | (Ret x, s') => (Ret x, s')
    | (Raise _, s') => h s'
    end.

Notation "x <- m ;; f" := (bind m (fun x => f))
  (at level 61, m at next level, right associativity).
Notation "m ;;; f" := (bind m (fun _ => f))
  (at level 61, right associativity).

(** [print(text)] *)
Definition print (text : pystr) : M unit :=
  fun s => (Ret tt, State (ENGINES s) (stdout s ++ [text]) (stderr s)
                          (atexit s) (world s) (trace s)).

(** [print(text, file=sys.stderr)] *)
Definition eprint (text : pystr) : M unit :=
  fun s => (Ret tt, State (ENGINES s) (stdout s) (stderr s ++ [text])
                          (atexit s) (world s) (trace s)).

(** text written by a library straight to the streams *)
Definition emit (out err : list pystr) : M unit :=
  fun s => (Ret tt, State (ENGINES s) (stdout s ++ out) (stderr s ++ err)
                          (atexit s) (world s) (trace s)).

Definition atexit_register (h : hook) : M unit :=
  fun s => (Ret tt, State (ENGINES s) (stdout s) (stderr s)
                          (atexit s ++ [h]) (world s) (trace s)).

Definition engines_mem (path : pystr) : M bool :=
  fun s => (Ret (Dict.mem path (ENGINES s)), s).

(** [ENGINES[path]] *)
Definition engines_get (path : pystr) : M Handle :=
  fun s =>
    match Dict.get path (ENGINES s) with
    | Some h => (Ret h, s)
    | None => (Raise KeyError, s)
    end.

(** [ENGINES[path] = h] *)
Definition engines_set (path : pystr) (h : Handle) : M unit :=
  fun s => (Ret tt, State (Dict.set path h (ENGINES s)) (stdout s) (stderr s)
                          (atexit s) (world s) (trace s)).

Definition with_world (w : World) (ev : event) (s : state) : state :=
  State (ENGINES s) (stdout s) (stderr s) (atexit s) w (trace s ++ [ev]).

Definition do_popen_uci (path : pystr) : M Handle :=
  fun s =>
    let (r, w) := popen_uci path (world s) in
    (match r with Some h => Ret h | None => Raise EngineError end,
     with_world w (EvPopen path r) s).

Definition do_ping (h : Handle) : M unit :=
  fun s =>
    let (ok, w) := ping h (world s) in
    (if ok then Ret tt else Raise EngineError, with_world w (EvPing h ok) s).

Definition do_analyse (h : Handle) (board : Board) (d : Z) : M Info :=
  fun s =>
    let (r, w) := analyse h board d (world s) in
    (match r with Some i => Ret i | None => Raise EngineError end,
     with_world w
       (EvAnalyse h (match r with Some _ => true | None => false end)) s).

Definition do_quit (h : Handle) : M unit :=
  fun s =>
    let (ok, w) := quit h (world s) in
    (if ok then Ret tt else Raise EngineError, with_world w (EvQuit h ok) s).

(** *** Subroutines *)

Definition instantiate_engine (engine_path : pystr) : M Handle :=
  present <- engines_mem engine_path ;;
  (if negb present
   then h <- do_popen_uci engine_path ;; engines_set engine_path h
   else ret tt) ;;;
  try_except
    (h <- engines_get engine_path ;; do_ping h)
    (h <- do_popen_uci engine_path ;; engines_set engine_path h) ;;;
  engines_get engine_path.

(** the loop of [cleanup] over a snapshot of the values *)
Fixpoint quit_all (hs : list Handle) : M unit :=
  match hs with
  | [] => ret tt
  | e :: hs' => try_except (do_quit e) (ret tt) ;;; quit_all hs'
  end.

Definition cleanup : M unit :=
  fun s => quit_all (Dict.values (ENGINES s)) s.

Definition box_row : pystr := py "├───┼───┼───┼───┼───┼───┼───┼───┤".
Definition box_top : pystr := py "┌───┬───┬───┬───┬───┬───┬───┬───┐".
Definition box_bottom : pystr := py "└───┴───┴───┴───┴───┴───┴───┴───┘".

(** [str.maketrans(a, b)] and [text.translate(table)] *)
Definition maketrans (a b : pystr) : list (pychar * pychar) := combine a b.

Fixpoint trans_lookup (c : pychar) (table : list (pychar * pychar))
  : option pychar :=
  match table with
  | [] => None
  | (x, y) :: table' => if (x =? c)%N then Some y else trans_lookup c table'
  end.

Definition translate (table : list (pychar * pychar)) (text : pystr) : pystr :=
  map (fun c => match trans_lookup c table with Some y => y | None => c end)
      text.

(** the text branch of [pgn_to_board_callback] *)
Definition board_text (unicode : pystr) : pystr :=
  let text := unicode in
  let text := Re.sub (Re.Lit (py "·")) [Re.TLit (py " ")] text in
  let text := Re.sub (Re.Lit (py "-----------------"))
                     [Re.TLit box_row] text in
  let text := Re.sub (Re.Seq Re.BeginString (Re.Lit (py "  " ++ box_row)))
                     [Re.TLit (py "  " ++ box_top)] text in
  let text := Re.sub (Re.Lit (box_row ++ [NL] ++ py "   a"))
                     [Re.TLit (box_bottom ++ [NL] ++ py "   a")] text in
  let text := Re.sub (Re.Lit (py "a b c d e f g h"))
                     [Re.TLit (py " a   b   c   d   e   f   g   h")] text in
  let text := Re.sub (Re.Chr 124%N) [Re.TLit (py " │ ")] text in
  let text := Re.sub (Re.Seq Re.BeginLine
                        (Re.Seq (Re.Group 1 (Re.Cls decimal)) (Re.Chr SPACE)))
                     [Re.TGroup 1] text in
  let text := translate (maketrans (py "♜♞♝♛♚♟♖♘♗♕♔♙") (py "RNBQKPrnbqkp"))
                        text in
  let text := Re.sub (Re.Chr NL) [Re.TLit (py "\n")] text in
  text.

Definition pgn_to_board_callback (game : Game) (board : Board)
           (last_move : option Move) (args : Namespace) : M pyval :=
  if str_eqb (board_format args) (py "svg") then
    ret (PStr (py ":board-svg " ++ svg_board board last_move (pixels args)))
  else if str_eqb (board_format args) (py "text") then
    ret (PStr (py ":board-text " ++ board_text (board_unicode board)))
  else
    eprint (py "Bad pgn-mode -board_format value: " ++ board_format args) ;;;
    ret PNone.

Definition pgn_to_fen_callback (game : Game) (board : Board)
           (last_move : option Move) (args : Namespace) : M pyval :=
  ret (PStr (py ":fen " ++ board_fen board)).

Definition pgn_to_score_callback (game : Game) (board : Board)
           (last_move : option Move) (args : Namespace) : M pyval :=
  engine <- instantiate_engine (engine args) ;;
  uci_info <- do_analyse engine board (depth args) ;;
  match info_score uci_info with
  | Some score => ret (PStr (py ":score " ++ score))
  | None => raise KeyError
  end.

(** [\s+\S+\Z] *)
Definition result_re : Re.regex :=
  Re.Seq (Re.Plus Re.space) (Re.Seq (Re.Plus Re.nonspace) Re.EndString).

Definition pgn_to_mainline_callback (game : Game) (board : Board)
           (last_move : option Move) (args : Namespace) : M pyval :=
  let mainline := export_movetext game in
  let mainline := Re.sub result_re [] mainline in
  ret (PStr (py ":san " ++ mainline)).

Definition callback : Type :=
  Game -> Board -> option Move -> Namespace -> M pyval.

Definition CALLBACKS : Dict.t callback :=
  [ (py ":pgn-to-fen", pgn_to_fen_callback);
    (py ":pgn-to-board", pgn_to_board_callback);
    (py ":pgn-to-score", pgn_to_score_callback);
    (py ":pgn-to-mainline", pgn_to_mainline_callback) ].

(** The request pattern of [listen]: group 1 [:\S+], group 2 [.*?],
    [\s+--\s+], group 3 [:\S+], [\s+], group 4 [\S.*], a newline. *)
Definition request_re : Re.regex :=
  Re.Seq (Re.Group 1 (Re.Seq (Re.Chr COLON) (Re.Plus Re.nonspace)))
 (Re.Seq (Re.Group 2 (Re.StarLazy Re.dot))
 (Re.Seq (Re.Plus Re.space)
 (Re.Seq (Re.Lit [DASH; DASH])
 (Re.Seq (Re.Plus Re.space)
 (Re.Seq (Re.Group 3 (Re.Seq (Re.Chr COLON) (Re.Plus Re.nonspace)))
 (Re.Seq (Re.Plus Re.space)
 (Re.Seq (Re.Group 4 (Re.Seq (Re.Cls Re.nonspace) (Re.Star Re.dot)))
         (Re.Chr NL)))))))).

(** [argparser.parse_args(shlex.split(text))] *)
Definition parse_options (argparser : list Argument) (text : pystr) : parsed :=
  match shlex_split text with
  | None => Exited [] []
  | Some words => parse_args argparser words
  end.

(** [chess.pgn.read_game(io.StringIO(pgn))]: the game, if the text has
    one, after the reader logged on the error stream what it could not
    make sense of *)
Definition do_read_game (pgn : pystr) : M (option Game) :=
  match read_game pgn with
  | None => ret None
  | Some game => emit [] (game_errors game) ;;; ret (Some game)
  end.

(** [game.board()] on a game *)
Definition do_game_board (game : Game) : M Board :=
  match game_board game with
  | Some board => ret board
  | None => raise ValueError
  end.

(** The moves of the main line pushed in order, the last one remembered. *)
Definition replay (board : Board) (moves : list Move) : Board * option Move :=
  fold_left (fun acc move => (board_push (fst acc) move, Some move))
            moves (board, None).

(** One turn of the [while True] loop of [listen], [input_str] being the
    line [sys.stdin.readline()] returned. *)
Definition listen_body (argparser : list Argument) (input_str : pystr)
  : M ctl :=
  if (length input_str =? 0)%nat then
    cleanup ;;; ret Break
  else if str_eqb input_str [NL] then
    ret Continue
  else
    match Re.search request_re input_str with
    | None =>
        eprint (py "Bad pgn-mode python process input: " ++ input_str) ;;;
        ret Continue
    | Some m =>
        let command := Re.group m 1 in
        match Dict.get command CALLBACKS with
        | None =>
            eprint (py "Bad request command (unknown): " ++ command) ;;;
            ret Continue
        | Some handler =>
            match parse_options argparser (Re.group m 2) with
            | Exited out err =>
                emit out err ;;;
                eprint (py "Bad request options: " ++ Re.group m 2) ;;;
                ret Continue
            | Parsed args =>
                let payload_type := Re.group m 3 in
                if negb (str_eqb payload_type (py ":pgn")) then
                  eprint (py "Bad request :payload-type (unknown): "
                            ++ payload_type) ;;;
                  ret Continue
                else
                  let pgn := Re.group m 4 in
                  let pgn := Re.sub (Re.Lit [BACKSLASH; LOWER_N])
                                    [Re.TLit [NL]] pgn in
                  let pgn := pgn ++ [NL; NL] in
                  game <- do_read_game pgn ;;
                  match game with
                  | None => raise AttributeError  (* [None.board()] *)
                  | Some game =>
                      board <- do_game_board game ;;
                      let '(board, last_move) :=
                        replay board (mainline_moves game) in
                      reply <- handler game board last_move args ;;
                      print (py_str reply) ;;;
                      ret Continue
                  end
            end
        end
    end.

(** [listen()] on the lines still to come on standard input; at the end
    of input [readline] returns the empty string. *)
Fixpoint listen_loop (argparser : list Argument) (stdin : list pystr)
  : M unit :=
  match stdin with
  | [] => listen_body argparser [] ;;; ret tt
  | input_str :: stdin' =>
      c <- listen_body argparser input_str ;;
      match c with
      | Break => ret tt
      | Continue => listen_loop argparser stdin'
      end
  end.

Definition listen (stdin : list pystr) : M unit :=
  let argparser := generate_argparser in
  listen_loop argparser stdin.

(** *** Main *)

Definition is_version_flag (argv : list pystr) : bool :=
  (1 <? length argv)%nat &&
  (str_eqb (nth 1 argv []) (py "-version")
   || str_eqb (nth 1 argv []) (py "--version")).

Definition main (argv : list pystr) (stdin : list pystr) : M unit :=
  if is_version_flag argv then
    print __version__ ;;; raise (SystemExit 0)
  else
    atexit_register HookCleanup ;;; listen stdin.

Definition run_hook (h : hook) : M unit :=
  match h with HookCleanup => cleanup end.

(** exit hooks run last registered first; [cleanup] never raises *)
Fixpoint run_hooks (hs : list hook) : M unit :=
  match hs with
  | [] => ret tt
  | h :: hs' => run_hook h ;;; run_hooks hs'
  end.

(** The end of the interpreter.  However the main program ended, the
    interpreter first waits for the threads that are not daemons, and
    only then runs the exit hooks.  With an engine still running the
    wait has no end: no hook runs and the process stays as it is. *)
Definition hangs (s : state) : bool := engine_threads (world s).

(** The whole process: the main program, then the wait for the engine
    threads, then the exit hooks.  The state is the one the process ends
    in or, when it hangs, stays in. *)
Definition run_process (argv : list pystr) (stdin : list pystr) (s : state)
  : res unit * state :=
  let (r, s1) := main argv stdin s in
  if hangs s1 then (r, s1)
  else (r, snd (run_hooks (rev (atexit s1)) s1)).

End Server.

Notation "x <- m ;; f" := (bind m (fun x => f))
  (at level 61, m at next level, right associativity).
Notation "m ;;; f" := (bind m (fun _ => f))
  (at level 61, right associativity).

(** ** A small stand-in for the collaborators

    Concrete libraries on which the server can be run: games are lists of
    move tokens, engines are numbered processes that die when told to quit,
    options are [-flag value] pairs read against the declared arguments. *)

Module Sample.

(** words of a text, split at white space *)
Fixpoint words_aux (cur : pystr) (s : pystr) : list pystr :=
  match s with
  | [] => match cur with [] => [] | _ => [rev cur] end
  | c :: s' =>
      if Re.space c
      then match cur with
           | [] => words_aux [] s'
           | _ => rev cur :: words_aux [] s'
           end
      else words_aux (c :: cur) s'
  end.

Definition words (s : pystr) : list pystr := words_aux [] s.

Fixpoint join (sep : pystr) (l : list pystr) : pystr :=
  match l with
  | [] => []
  | [x] => x
  | x :: l' => x ++ sep ++ join sep l'
  end.

Definition is_digit (c : pychar) : bool := ((48 <=? c) && (c <=? 57))%N.

(** a move token: not a move number, not a result marker *)
Definition is_move (w : pystr) : bool :=
  match w with
  | [] => false
  | c :: _ => negb (is_digit c) && negb (c =? 42)%N
  end.

(** a header: the stand-in knows one start position only, so a game that
    names one is logged by the reader and cannot be set up *)
Definition is_header (w : pystr) : bool :=
  match w with
  | c :: _ => (c =? 91)%N
  | [] => false
  end.

(** the log of the reader: a move played twice in a row is illegal *)
Fixpoint illegal (g : list pystr) : list pystr :=
  match g with
  | m1 :: ((m2 :: _) as g') =>
      (if str_eqb m1 m2 then [py "illegal san: " ++ m2] else []) ++ illegal g'
  | _ => []
  end.

Definition chess : ChessLib := {|
  Game := list pystr;
  Board := list pystr;
  Move := pystr;
  read_game := fun text =>
    match words text with
    | [] => None
    | ws => Some (filter is_move ws)
    end;
  game_errors := fun g =>
    (if existsb is_header g then [py "unsupported start position"] else [])
      ++ illegal g;
  game_board := fun g => if existsb is_header g then None else Some [];
  mainline_moves := fun g => g;
  board_push := fun b m => b ++ [m];
  board_fen := fun b => join (py "/") b;
  svg_board := fun b lm size =>
    py "<svg>" ++ join (py ",") b ++
    match lm with Some m => py " last=" ++ m | None => [] end ++ py "</svg>";
  board_unicode := fun b => py "8 |·|♜|" ++ [NL] ++ py "-----------------";
  export_movetext := fun g => join (py " ") (g ++ [py "*"])
|}.

Definition unicode : UnicodeDb := {| decimal := is_digit |}.

(** The world: how many engines were started, and which (as a bit set)
    have been told to quit.  The path [nowhere] is not an executable. *)
Record world : Type := World_ { started : nat; gone : N }.

Definition engines : EngineLib chess :=
  @Build_EngineLib chess world nat pystr
    (* popen_uci *)
    (fun path w =>
       if str_eqb path (py "nowhere") then (None, w)
       else (Some (started w), World_ (S (started w)) (gone w)))
    (* ping *)
    (fun h w => (negb (N.testbit (gone w) (N.of_nat h)), w))
    (* analyse *)
    (fun h (b : list pystr) d w =>
       if N.testbit (gone w) (N.of_nat h) then (None, w)
       else (Some (py "cp " ++ join (py "/") b), w))
    (* info_score *)
    (fun i => Some i)
    (* quit *)
    (fun h w =>
       (negb (N.testbit (gone w) (N.of_nat h)),
        World_ (started w) (N.setbit (gone w) (N.of_nat h))))
    (* engine_threads *)
    (fun w =>
       negb (N.ldiff (N.ones (N.of_nat (started w))) (gone w) =? 0)%N).

Fixpoint digits_value (acc : Z) (s : pystr) : option Z :=
  match s with
  | [] => Some acc
  | c :: s' =>
      if is_digit c then digits_value (acc * 10 + Z.of_N (c - 48)) s' else None
  end.

Definition parse_int (s : pystr) : option Z :=
  match s with
  | [] => None
  | _ => digits_value 0 s
  end.

Definition has_flag (f : pystr) (a : Argument) : bool :=
  existsb (str_eqb f) (flags a).

(** destination of an argument: its last flag without the dashes *)
Definition dest (a : Argument) : pystr :=
  match last (flags a) [] with
  | _ :: _ :: name => name
  | name => name
  end.

Definition convert (a : Argument) (w : pystr) : option argval :=
  match type_ a with
  | TypeInt => match parse_int w with Some z => Some (VInt z) | None => None end
  | TypeStr => Some (VStr w)
  end.

Fixpoint read_pairs (argparser : list Argument) (ws : list pystr)
  : option (list (pystr * argval)) :=
  match ws with
  | [] => Some []
  | [_] => None
  | f :: v :: ws' =>
      match find (has_flag f) argparser with
      | None => None
      | Some a =>
          match convert a v, read_pairs argparser ws' with
          | Some x, Some l => Some ((dest a, x) :: l)
          | _, _ => None
          end
      end
  end.

Definition defaults (argparser : list Argument) : list (pystr * argval) :=
  flat_map (fun a => match default a with
                     | [x] => [(dest a, x)]
                     | _ => []
                     end) argparser.

Definition lookup_int (k : pystr) (l : list (pystr * argval)) : option Z :=
  match Dict.get k l with Some (VInt z) => Some z | _ => None end.

Definition lookup_str (k : pystr) (l : list (pystr * argval)) : option pystr :=
  match Dict.get k l with Some (VStr s) => Some s | _ => None end.

Definition args : ArgLib := {|
  shlex_split := fun text =>
    if existsb (fun c => (c =? 34) || (c =? 39) || (c =? 92))%N text
    then None else Some (words text);
  parse_args := fun argparser ws =>
    match read_pairs argparser ws with
    | None => Exited [] [py "usage"]
    | Some given =>
        (* later occurrences win, then the defaults *)
        let l := rev given ++ defaults argparser in
        match lookup_int (py "pixels") l, lookup_str (py "board_format") l,
              lookup_str (py "engine") l, lookup_int (py "depth") l with
        | Some p, Some f, Some e, Some d => Parsed (Build_Namespace p f e d)
        | _, _, _, _ => Exited [] [py "usage"]
        end
    end
|}.

(** a fresh process: nothing printed, no engine, no hook *)
Definition start : @state chess engines :=
  @State chess engines [] [] [] [] (World_ 0 0) [].

(** a request line: the text and the newline [readline] leaves on it *)
Definition line (s : string) : pystr := py s ++ [NL].

(** what the request pattern finds in a line it accepts *)
Definition matched (l : pystr) : Re.mstate :=
  match Re.search (@request_re) l with
  | Some m => m
  | None => Re.MState [] [] []
  end.

Definition default_args : Namespace :=
  Build_Namespace 400 (py "svg") (py "stockfish") 20.

Definition fen_line : pystr := line ":pgn-to-fen -- :pgn 1. e4 e5 2. Nf3\n\n".

Definition score_line : pystr := line ":pgn-to-score -depth 12 -- :pgn 1. e4 e5".

Definition score_args : Namespace :=
  Build_Namespace 400 (py "svg") (py "stockfish") 12.



Definition foo_line : pystr :=
  line ":pgn-to-board -board_format foo -- :pgn 1. e4".

Definition foo_args : Namespace :=
  Build_Namespace 400 (py "foo") (py "stockfish") 20.

(** a game without moves: the payload is the bare result marker *)
Definition bare_line : pystr := line ":pgn-to-mainline -- :pgn *".

(** a payload that is one escaped newline: the text read is blank *)
Definition blank_line : pystr := line ":pgn-to-fen -- :pgn \n".

(** a game that names a start position *)
Definition header_line : pystr :=
  line ":pgn-to-fen -- :pgn [FEN x]\n\n1. e4".

(** a move played twice *)
Definition twice_line : pystr := line ":pgn-to-fen -- :pgn 1. e4 e4".

(** a request with tabs around the two dashes *)
Definition tabbed_line : pystr :=
  py ":pgn-to-fen" ++ [9%N] ++ py "--" ++ [9%N] ++ py ":pgn 1. e4" ++ [NL].

(** a process whose one engine has gone *)
Definition crashed : @state chess engines :=
  @State chess engines [(py "stockfish", 0%nat)] [] [] [] (World_ 1 1) [].


End Sample.

(** ** Reference definitions, in the words of the specification *)

Module Spec.

(** every two-character sequence backslash, n replaced by a newline *)
Fixpoint unescape (s : pystr) : pystr :=
  match s with
  | [] => []
  | c :: t =>
      match t with
      | d :: t' =>
          if (c =? BACKSLASH)%N && (d =? LOWER_N)%N
          then NL :: unescape t'
          else c :: unescape t
      | [] => [c]
      end
  end.

(** the last move played, if any *)
Definition last_move {T} (moves : list T) : option T :=
  last (map Some moves) None.

Fixpoint dropwhile (p : pychar -> bool) (s : pystr) : pystr :=
  match s with
  | [] => []
  | c :: t => if p c then dropwhile p t else s
  end.

Fixpoint takewhile (p : pychar -> bool) (s : pystr) : pystr :=
  match s with
  | [] => []
  | c :: t => if p c then c :: takewhile p t else []
  end.

(** the trailing token (characters that are not white space) removed,
    then any white space before it *)
Definition strip_token (s : pystr) : pystr :=
  rev (dropwhile Re.space (dropwhile Re.nonspace (rev s))).

(** the text is: white space (at least one), then a token, then its end *)
Definition space_then_token (s : pystr) : bool :=
  match s with
  | [] => false
  | c :: t =>
      Re.space c &&
      match dropwhile Re.space t with
      | [] => false
      | c' :: t' =>
          match dropwhile Re.nonspace t' with
          | [] => true
          | _ :: _ => false
          end
      end
  end.

(** the text ends in white space (at least one) and a token *)
Definition ends_in_token (s : pystr) : Prop :=
  exists kept ws tok,
    s = kept ++ ws ++ tok /\ ws <> [] /\ forallb Re.space ws = true /\
    tok <> [] /\ forallb Re.nonspace tok = true.

(** [sub] occurs in [s] at its head *)
Fixpoint prefix_b (sub s : pystr) : bool :=
  match sub, s with
  | [], _ => true
  | _ :: _, [] => false
  | x :: sub', y :: s' => (x =? y)%N && prefix_b sub' s'
  end.

(** [sub] occurs somewhere in [s] *)
Fixpoint infix_b (sub s : pystr) : bool :=
  prefix_b sub s ||
  match s with
  | [] => false
  | _ :: s' => infix_b sub s'
  end.



(** white space, at least one character *)
Definition blank (ws : pystr) : Prop := ws <> [] /\ forallb Re.space ws = true.

End Spec.

Section Wellformed.

Context {C : ChessLib} {U : UnicodeDb} {E : EngineLib C} {A : ArgLib}.

(** the state with more text on the two streams, all else as it was *)
Definition printed (s : state) (out err : list pystr) : state :=
  State (ENGINES s) (stdout s ++ out) (stderr s ++ err)
        (atexit s) (world s) (trace s).

(** A request line as the request grammar reads it: the pattern matches,
    the command is known, the options parse, the payload type is
    [:pgn]. *)
Definition well_formed (line : pystr) (m : Re.mstate) (handler : callback)
           (args : Namespace) : Prop :=
  Re.search request_re line = Some m /\
  Dict.get (Re.group m 1) CALLBACKS = Some handler /\
  parse_options generate_argparser (Re.group m 2) = Parsed args /\
  Re.group m 3 = py ":pgn".

(** the board format is one the board handler knows *)
Definition format_known (args : Namespace) : Prop :=
  board_format args = py "svg" \/ board_format args = py "text".

(** the text handed to the PGN reader for a payload *)
Definition pgn_text (payload : pystr) : pystr :=
  Spec.unescape payload ++ [NL; NL].

(** the board after every move of the main line, from the initial one *)
Definition final_board (game : Game) (board : Board) : Board :=
  fold_left board_push (mainline_moves game) board.


(** the handle has answered a probe, and was not started again since *)
Definition known_live (h : Handle) (tr : list event) : Prop :=
  exists before after,
    tr = before ++ EvPing h true :: after /\
    forall path, ~ In (EvPopen path (Some h)) after.

(** What [instantiate_engine] does once the handle [h0] is stored for the
    path: the calls it makes and how it ends. *)
Inductive probed (path : pystr) (h0 : Handle)
  : list event -> res Handle -> Prop :=
| probed_live :
    probed path h0 [EvPing h0 true] (Ret h0)
| probed_respawned (h : Handle) :
    probed path h0 [EvPing h0 false; EvPopen path (Some h)] (Ret h)
| probed_lost :
    probed path h0 [EvPing h0 false; EvPopen path None] (Raise EngineError).

(** the handles a log asks to quit, in order *)
Fixpoint quit_requests (tr : list event) : list Handle :=
  match tr with
  | [] => []
  | EvQuit h _ :: tr' => h :: quit_requests tr'
  | _ :: tr' => quit_requests tr'
  end.

Definition is_quit (ev : event) : bool :=
  match ev with EvQuit _ _ => true | _ => false end.

(** no key of the pool is lost from one state to the other *)
Definition pool_le (s s' : state) : Prop :=
  incl (Dict.keys (ENGINES s)) (Dict.keys (ENGINES s')).

(** nothing was printed from one state to the other *)
Definition same_streams (s s' : state) : Prop :=
  stdout s' = stdout s /\ stderr s' = stderr s.

(** the exit hooks are the same *)
Definition same_hooks (s s' : state) : Prop := atexit s' = atexit s.

(** only the world and the log of calls differ *)
Definition same_but_world (s s' : state) : Prop :=
  ENGINES s' = ENGINES s /\ stdout s' = stdout s /\ stderr s' = stderr s /\
  atexit s' = atexit s.

(** a computation keeps a relation between the states before and after *)
Definition keeps (R : state -> state -> Prop) {T} (m : M T) : Prop :=
  forall s, R s (snd (m s)).

(** the world after asking a handle to quit *)
Definition after_quit (h : Handle) (w : World) : World := snd (quit h w).

(** ... and after asking each of a list of handles in turn *)
Definition after_quits (hs : list Handle) (w : World) : World :=
  fold_left (fun w h => after_quit h w) hs w.

End Wellformed.

(** ** Options a request can carry unchanged

    Option text that the request pattern hands to the option parser as it
    was written: it stays on the line, it is empty or starts with white
    space and ends in a character that is none, and it holds no two
    dashes followed by white space, which the pattern would take for the
    separator. *)
Definition plain_options (opts : pystr) : Prop :=
  forallb Re.dot opts = true /\
  (opts = [] \/
   (exists x l, opts = x :: l /\ Re.space x = true) /\
   (exists l y, opts = l ++ [y] /\ Re.nonspace y = true)) /\
  (forall l v r, opts = l ++ DASH :: DASH :: v :: r -> Re.space v = false).

(** * Facts *)

Lemma str_eqb_eq (a b : pystr) : str_eqb a b = true <-> a = b.
Proof.
  unfold str_eqb. destruct (list_eq_dec N.eq_dec a b); split; congruence.
Qed.

Lemma str_eqb_refl (a : pystr) : str_eqb a a = true.
Proof. now apply str_eqb_eq. Qed.

Lemma str_eqb_neq (a b : pystr) : str_eqb a b = false <-> a <> b.
Proof.
  unfold str_eqb. destruct (list_eq_dec N.eq_dec a b); split; congruence.
Qed.

Module ReFacts.

Import Re.

(** Passing over the rest of a match. *)
Lemma sub_walk_skip r tpl (a : pystr) :
  forall pre b,
    sub_walk r tpl (length a) pre (a ++ b) = sub_walk r tpl 0 (rev a ++ pre) b.
Proof.
  induction a as [|c a IH]; intros pre b; simpl.
  - reflexivity.
  - rewrite IH, <- app_assoc. reflexivity.
Qed.

(** The escape pattern matches exactly at a backslash followed by [n]. *)
Lemma match_escape pre suf :
  match_at false (Lit [BACKSLASH; LOWER_N]) pre suf =
  match suf with
  | c :: d :: t =>
      if (c =? BACKSLASH)%N && (d =? LOWER_N)%N
      then Some (MState (d :: c :: pre) t [])
      else None
  | _ => None
  end.
Proof.
  unfold match_at; simpl.
  destruct suf as [|c [|d t]]; simpl; auto.
  - destruct (c =? BACKSLASH)%N; reflexivity.
  - destruct (c =? BACKSLASH)%N, (d =? LOWER_N)%N; reflexivity.
Qed.

(** One turn of the replacement loop at a position not inside a match. *)
Lemma sub_walk_0 r tpl pre suf :
  sub_walk r tpl 0 pre suf =
  match match_at false r pre suf with
  | Some st =>
      expand tpl st ++
      match (length (consumed st) - length pre)%nat with
      | S n =>
          match suf with
          | c :: suf' => sub_walk r tpl n (c :: pre) suf'
          | [] => []
          end
      | O =>
          match suf with
          | [] => []
          | c :: suf' =>
              match match_at true r pre suf with
              | Some st2 =>
                  expand tpl st2 ++
                  sub_walk r tpl (length (consumed st2) - length pre - 1)
                           (c :: pre) suf'
              | None => c :: sub_walk r tpl 0 (c :: pre) suf'
              end
          end
      end
  | None =>
      match suf with
      | c :: suf' => c :: sub_walk r tpl 0 (c :: pre) suf'
      | [] => []
      end
  end.
Proof. destruct suf; reflexivity. Qed.

Lemma sub_walk_S r tpl n pre c suf :
  sub_walk r tpl (S n) pre (c :: suf) = sub_walk r tpl n (c :: pre) suf.
Proof. reflexivity. Qed.

Lemma sub_escape_walk n :
  forall s pre, (length s <= n)%nat ->
    sub_walk (Lit [BACKSLASH; LOWER_N]) [TLit [NL]] 0 pre s = Spec.unescape s.
Proof.
  induction n as [|n IH]; intros s pre Hn.
  - destruct s; [reflexivity | simpl in Hn; lia].
  - rewrite sub_walk_0, match_escape.
    destruct s as [|c [|d t]]; try reflexivity.
    change (Spec.unescape (c :: d :: t))
      with (if (c =? BACKSLASH)%N && (d =? LOWER_N)%N
            then NL :: Spec.unescape t else c :: Spec.unescape (d :: t)).
    simpl in Hn.
    destruct ((c =? BACKSLASH)%N && (d =? LOWER_N)%N) eqn:Hcd.
    + cbn [consumed length].
      replace (S (S (length pre)) - length pre)%nat with 2%nat by lia.
      rewrite sub_walk_S. cbn [expand flat_map app sub_walk].
      f_equal. apply IH. lia.
    + f_equal. apply IH. simpl. lia.
Qed.

(** [re.sub(r'\\n', '\n', s)] replaces every backslash-n by a newline. *)
Lemma sub_escape (s : pystr) :
  sub (Lit [BACKSLASH; LOWER_N]) [TLit [NL]] s = Spec.unescape s.
Proof. unfold sub. now apply sub_escape_walk with (n := length s). Qed.

(** *** Spans *)

Lemma take_drop p s : Spec.takewhile p s ++ Spec.dropwhile p s = s.
Proof.
  induction s as [|c t IH]; simpl; auto.
  destruct (p c); simpl; congruence.
Qed.

Lemma takewhile_all p s : forallb p (Spec.takewhile p s) = true.
Proof.
  induction s as [|c t IH]; simpl; auto.
  destruct (p c) eqn:Hc; simpl; auto. now rewrite Hc.
Qed.

Lemma dropwhile_head p s c t : Spec.dropwhile p s = c :: t -> p c = false.
Proof.
  induction s as [|x s IH]; simpl; [discriminate|].
  destruct (p x) eqn:Hx; auto. intros [= <- <-]. exact Hx.
Qed.

Lemma dropwhile_all p a b :
  forallb p a = true -> Spec.dropwhile p (a ++ b) = Spec.dropwhile p b.
Proof.
  induction a as [|x a IH]; simpl; auto.
  intros H. apply andb_true_iff in H as [Hx Ha]. rewrite Hx. auto.
Qed.

Lemma takewhile_all_app p a b :
  forallb p a = true -> Spec.takewhile p (a ++ b) = a ++ Spec.takewhile p b.
Proof.
  induction a as [|x a IH]; simpl; auto.
  intros H. apply andb_true_iff in H as [Hx Ha]. rewrite Hx, IH; auto.
Qed.

(** a character outside the class stops the scan before the end *)
Lemma dropwhile_stops p a c b :
  p c = false -> Spec.dropwhile p (a ++ c :: b) <> [].
Proof.
  intros Hc. induction a as [|x a IH]; simpl.
  - rewrite Hc. discriminate.
  - destruct (p x); [exact IH | discriminate].
Qed.

(** Greedy repetition never has to give back what it took when the
    continuation cannot start with a character of the class. *)
Lemma star_greedy_commit (R : Type) p (k : pystr -> pystr -> option R) :
  (forall pre c t, p c = true -> k pre (c :: t) = None) ->
  forall s pre,
    star_greedy p k pre s =
    k (rev (Spec.takewhile p s) ++ pre) (Spec.dropwhile p s).
Proof.
  intros Hk. induction s as [|c t IH]; intros pre; simpl.
  - reflexivity.
  - destruct (p c) eqn:Hc; [|reflexivity].
    rewrite IH. simpl. rewrite <- app_assoc. simpl.
    destruct (k (rev (Spec.takewhile p t) ++ c :: pre) (Spec.dropwhile p t))
      eqn:Hr; auto.
Qed.

(** The result pattern matches at a position exactly when what follows is
    white space and then one last token; the match runs to the end. *)
Lemma match_result pre suf :
  match_at false result_re pre suf =
  if Spec.space_then_token suf then Some (MState (rev suf ++ pre) [] [])
  else None.
Proof.
  unfold match_at, result_re, Plus. cbn [run rest consumed].
  destruct suf as [|c t]; [reflexivity|].
  cbn [Spec.space_then_token].
  destruct (space c) eqn:Hc; [|reflexivity].
  cbn [andb step consumed rest].
  rewrite star_greedy_commit.
  2:{ intros pre' x t' Hx. cbn [at_ rest]. unfold nonspace. now rewrite Hx. }
  cbn [at_ rest].
  destruct (Spec.dropwhile space t) as [|c' t'] eqn:Hd; [reflexivity|].
  pose proof Hd as Hc'. apply dropwhile_head in Hc'.
  unfold nonspace at 1. rewrite Hc'. cbn [negb step consumed rest groups].
  rewrite star_greedy_commit.
  2:{ intros pre' x t'' Hx. reflexivity. }
  cbn [at_ rest consumed].
  destruct (Spec.dropwhile nonspace t') as [|y t''] eqn:Hd'; [|reflexivity].
  assert (Ht : t = Spec.takewhile space t ++ c' :: Spec.takewhile nonspace t').
  { rewrite <- (take_drop space t) at 1. rewrite Hd. do 2 f_equal.
    rewrite <- (take_drop nonspace t') at 1. rewrite Hd'. apply app_nil_r. }
  remember (Spec.takewhile space t) as a eqn:Ea.
  remember (Spec.takewhile nonspace t') as b eqn:Eb.
  clear Ea Eb Hd Hd'. subst t.
  unfold at_, step; cbn [groups]. do 2 f_equal.
  simpl. rewrite rev_app_distr. simpl. rewrite <- !app_assoc. reflexivity.
Qed.

Lemma space_then_token_nil : Spec.space_then_token [] = false.
Proof. reflexivity. Qed.

(** At a position where the pattern matches, the rest of the text goes. *)
Lemma sub_result_done pre s :
  Spec.space_then_token s = true -> sub_walk result_re [] 0 pre s = [].
Proof.
  intros H. rewrite sub_walk_0, match_result, H.
  cbn [expand flat_map app consumed].
  rewrite length_app, length_rev.
  replace (length s + length pre - length pre)%nat with (length s) by lia.
  destruct s as [|c t]; [reflexivity|]. cbn [length].
  rewrite <- (app_nil_r t) at 2. rewrite sub_walk_skip, sub_walk_0, match_result.
  reflexivity.
Qed.

(** Elsewhere the character is kept and the scan moves on. *)
Lemma sub_result_keep pre c t :
  Spec.space_then_token (c :: t) = false ->
  sub_walk result_re [] 0 pre (c :: t) = c :: sub_walk result_re [] 0 (c :: pre) t.
Proof. intros H. now rewrite sub_walk_0, match_result, H. Qed.

Lemma sub_result_prefix p :
  forall pre s,
    (forall a b, p = a ++ b -> b <> [] -> Spec.space_then_token (b ++ s) = false) ->
    Spec.space_then_token s = true ->
    sub_walk result_re [] 0 pre (p ++ s) = p.
Proof.
  induction p as [|c p IH]; intros pre s Hp Hs.
  - now apply sub_result_done.
  - cbn [app]. rewrite sub_result_keep.
    + f_equal. apply IH; auto.
      intros a b -> Hb. apply (Hp (c :: a) b); auto.
    + apply (Hp [] (c :: p)); [reflexivity | discriminate].
Qed.

Lemma sub_result_unchanged s :
  forall pre,
    (forall a b, s = a ++ b -> Spec.space_then_token b = false) ->
    sub_walk result_re [] 0 pre s = s.
Proof.
  induction s as [|c t IH]; intros pre H.
  - now rewrite sub_walk_0, match_result.
  - rewrite sub_result_keep.
    + f_equal. apply IH. intros a b ->. apply (H (c :: a) b). reflexivity.
    + apply (H [] (c :: t)). reflexivity.
Qed.

(** *** The shape the pattern looks for *)

Lemma space_then_token_intro ws tok :
  ws <> [] -> forallb space ws = true ->
  tok <> [] -> forallb nonspace tok = true ->
  Spec.space_then_token (ws ++ tok) = true.
Proof.
  intros Hws Hs Htok Hn.
  destruct ws as [|c ws]; [congruence|].
  destruct tok as [|c' tok]; [congruence|].
  simpl in Hs, Hn. apply andb_true_iff in Hs as [Hc Hs].
  apply andb_true_iff in Hn as [Hc' Hn].
  cbn [app Spec.space_then_token]. rewrite Hc. cbn [andb].
  rewrite dropwhile_all by assumption.
  unfold nonspace in Hc'. apply negb_true_iff in Hc'.
  cbn [Spec.dropwhile]. rewrite Hc'.
  rewrite <- (app_nil_r tok), dropwhile_all by assumption. reflexivity.
Qed.

Lemma space_then_token_elim s :
  Spec.space_then_token s = true ->
  exists ws tok,
    s = ws ++ tok /\ ws <> [] /\ forallb space ws = true /\
    tok <> [] /\ forallb nonspace tok = true.
Proof.
  destruct s as [|c t]; [discriminate|]. cbn [Spec.space_then_token].
  intros H. apply andb_true_iff in H as [Hc H].
  destruct (Spec.dropwhile space t) as [|c' t'] eqn:Hd; [discriminate|].
  destruct (Spec.dropwhile nonspace t') as [|] eqn:Hd'; [|discriminate].
  exists (c :: Spec.takewhile space t), (c' :: Spec.takewhile nonspace t').
  repeat split; try discriminate.
  - simpl. f_equal. rewrite <- (take_drop space t) at 1. rewrite Hd.
    do 2 f_equal. rewrite <- (take_drop nonspace t') at 1. rewrite Hd'.
    apply app_nil_r.
  - simpl. now rewrite Hc, takewhile_all.
  - simpl. apply dropwhile_head in Hd. unfold nonspace at 1.
    now rewrite Hd, takewhile_all.
Qed.

Lemma dropwhile_reaches p l x r :
  p x = false -> exists c q, Spec.dropwhile p (l ++ x :: r) = c :: q ++ r.
Proof.
  intros Hx. induction l as [|y l IH]; simpl.
  - rewrite Hx. now exists x, [].
  - destruct (p y); [exact IH|].
    exists y, (l ++ [x]). now rewrite <- app_assoc.
Qed.

(** A token followed by white space is in the way of a match. *)
Lemma space_then_token_blocked b x ws tok :
  nonspace x = true -> ws <> [] -> forallb space ws = true ->
  Spec.space_then_token ((b ++ [x]) ++ ws ++ tok) = false.
Proof.
  intros Hx Hws Hs. unfold nonspace in Hx. apply negb_true_iff in Hx.
  destruct ws as [|w ws]; [congruence|].
  simpl in Hs. apply andb_true_iff in Hs as [Hw _].
  rewrite <- app_assoc. cbn [app].
  destruct b as [|y b]; cbn [app Spec.space_then_token].
  - now rewrite Hx.
  - destruct (space y); [|reflexivity]. cbn [andb].
    destruct (@dropwhile_reaches space b x (w :: ws ++ tok) Hx) as (c & q & ->).
    destruct (Spec.dropwhile nonspace (q ++ w :: ws ++ tok)) eqn:Hd; auto.
    exfalso. revert Hd. apply dropwhile_stops. unfold nonspace. now rewrite Hw.
Qed.

Lemma forallb_rev (p : pychar -> bool) l : forallb p (rev l) = forallb p l.
Proof.
  induction l as [|c l IH]; simpl; auto.
  rewrite forallb_app, IH. simpl. rewrite andb_true_r. apply andb_comm.
Qed.

(** text = what is left of it without trailing white space, then that
    white space *)
Lemma rstrip_split (kept : pystr) :
  kept = rev (Spec.dropwhile space (rev kept)) ++
         rev (Spec.takewhile space (rev kept)).
Proof.
  rewrite <- rev_app_distr, take_drop. symmetry. apply rev_involutive.
Qed.

Lemma strip_token_split kept ws tok :
  ws <> [] -> forallb space ws = true ->
  tok <> [] -> forallb nonspace tok = true ->
  Spec.strip_token (kept ++ ws ++ tok) = rev (Spec.dropwhile space (rev kept)).
Proof.
  intros Hws Hs Htok Hn. unfold Spec.strip_token. f_equal.
  rewrite !rev_app_distr, <- app_assoc.
  rewrite dropwhile_all by now rewrite forallb_rev.
  destruct (rev ws) as [|w l] eqn:Hr.
  { apply (f_equal (@rev _)) in Hr. rewrite rev_involutive in Hr. now subst. }
  assert (Hw : space w = true).
  { rewrite <- forallb_rev, Hr in Hs. simpl in Hs.
    now apply andb_true_iff in Hs. }
  assert (Hl : forallb space l = true).
  { rewrite <- forallb_rev, Hr in Hs. simpl in Hs.
    now apply andb_true_iff in Hs. }
  cbn [app Spec.dropwhile]. unfold nonspace at 1. rewrite Hw.
  cbn [negb Spec.dropwhile]. rewrite Hw. now apply dropwhile_all.
Qed.

(** [re.sub(r'\s+\S+\Z', '', s)] on a text that ends in white space and a
    token: the token goes, with all the white space before it. *)
Lemma sub_result_strip s :
  Spec.ends_in_token s -> sub result_re [] s = Spec.strip_token s.
Proof.
  intros (kept & ws & tok & -> & Hws & Hs & Htok & Hn).
  rewrite strip_token_split by assumption.
  unfold sub.
  rewrite (rstrip_split kept) at 1.
  set (kept' := rev (Spec.dropwhile space (rev kept))).
  set (sp := rev (Spec.takewhile space (rev kept))).
  assert (Hsp : forallb space sp = true).
  { unfold sp. rewrite forallb_rev. apply takewhile_all. }
  rewrite <- app_assoc, (app_assoc sp ws tok).
  apply sub_result_prefix.
  - intros a b Hab Hb.
    destruct (exists_last Hb) as (b0 & y & ->).
    assert (Hy : nonspace y = true).
    { unfold kept' in Hab.
      destruct (Spec.dropwhile space (rev kept)) as [|c q] eqn:Hd.
      - simpl in Hab. symmetry in Hab.
        apply app_eq_nil in Hab as [_ Hab].
        apply app_eq_nil in Hab as [_ Hab]. discriminate.
      - simpl in Hab. rewrite app_assoc in Hab.
        apply app_inj_tail in Hab as [_ <-].
        apply dropwhile_head in Hd. unfold nonspace. now rewrite Hd. }
    apply space_then_token_blocked; auto.
    + destruct sp; [assumption | discriminate].
    + now rewrite forallb_app, Hsp, Hs.
  - apply space_then_token_intro; auto.
    + destruct sp; [assumption | discriminate].
    + now rewrite forallb_app, Hsp, Hs.
Qed.

(** ... and on any other text: nothing changes. *)
Lemma sub_result_same s :
  ~ Spec.ends_in_token s -> sub result_re [] s = s.
Proof.
  intros H. unfold sub. apply sub_result_unchanged.
  intros a b -> .
  destruct (Spec.space_then_token b) eqn:Hb; [|reflexivity].
  exfalso. apply H.
  destruct (@space_then_token_elim b Hb) as (ws & tok & -> & ?).
  now exists a, ws, tok.
Qed.

(** *** Soundness of the matcher *)

Lemma star_greedy_sound (R : Type) p (k : pystr -> pystr -> option R) out :
  forall suf pre,
    star_greedy p k pre suf = Some out ->
    exists a b, suf = a ++ b /\ forallb p a = true /\
                k (rev a ++ pre) b = Some out.
Proof.
  induction suf as [|c t IH]; intros pre H; simpl in H.
  - exists [], []; simpl; repeat split; auto.
  - destruct (p c) eqn:Hc.
    + destruct (star_greedy p k (c :: pre) t) eqn:Hr.
      * injection H as ->. apply IH in Hr as (a & b & -> & Ha & Hk).
        exists (c :: a), b. simpl. rewrite Hc, Ha, <- app_assoc. auto.
      * exists [], (c :: t); simpl; repeat split; auto.
    + exists [], (c :: t); simpl; repeat split; auto.
Qed.

Lemma star_lazy_sound (R : Type) p (k : pystr -> pystr -> option R) out :
  forall suf pre,
    star_lazy p k pre suf = Some out ->
    exists a b, suf = a ++ b /\ forallb p a = true /\
                k (rev a ++ pre) b = Some out.
Proof.
  induction suf as [|c t IH]; intros pre H; simpl in H.
  - destruct (k pre []) eqn:Hk; [|discriminate]. injection H as ->.
    exists [], []; simpl; repeat split; auto.
  - destruct (k pre (c :: t)) eqn:Hk.
    + injection H as ->. exists [], (c :: t); simpl; repeat split; auto.
    + destruct (p c) eqn:Hc; [|discriminate].
      apply IH in H as (a & b & -> & Ha & Hk').
      exists (c :: a), b. simpl. rewrite Hc, Ha, <- app_assoc. auto.
Qed.

(** Whatever the matcher answers, it answers through its continuation, at
    a position the pattern allows. *)
Lemma run_sound (R : Type) r :
  forall (k : mstate -> option R) st out,
    run r k st = Some out -> exists st', sem r st st' /\ k st' = Some out.
Proof.
  induction r as [c|p|p|p|r1 IH1 r2 IH2|n r1 IH1| | | |]; intros k st out H;
    simpl in H |- *.
  - destruct (rest st) as [|x t] eqn:Hr; [discriminate|].
    destruct (x =? c)%N eqn:Hx; [|discriminate].
    apply N.eqb_eq in Hx as ->. exists (step c t st). eauto.
  - destruct (rest st) as [|x t] eqn:Hr; [discriminate|].
    destruct (p x) eqn:Hx; [|discriminate]. exists (step x t st). eauto 6.
  - apply star_greedy_sound in H as (a & b & Hr & Ha & Hk).
    exists (at_ (rev a ++ consumed st) b st). eauto 6.
  - apply star_lazy_sound in H as (a & b & Hr & Ha & Hk).
    exists (at_ (rev a ++ consumed st) b st). eauto 6.
  - apply IH1 in H as (mid & H1 & H). apply IH2 in H as (st' & H2 & H). eauto.
  - apply IH1 in H as (st1 & H1 & H). eauto.
  - destruct (consumed st) eqn:Hc; [eauto | discriminate].
  - destruct (rest st) eqn:Hc; [eauto | discriminate].
  - destruct (consumed st) as [|c t] eqn:Hc; [eauto|].
    destruct (c =? NL)%N eqn:Hx; [|discriminate].
    apply N.eqb_eq in Hx as ->. exists st. eauto 6.
  - eauto.
Qed.

(** A search that succeeds has found its match somewhere in the text. *)
Lemma search_from_sound r :
  forall suf pre m,
    search_from r pre suf = Some m ->
    exists skipped suf',
      suf = skipped ++ suf' /\
      sem r (MState (rev skipped ++ pre) suf' []) m.
Proof.
  induction suf as [|c t IH]; intros pre m H; simpl in H.
  - destruct (match_at false r pre []) eqn:Hm; [|discriminate].
    injection H as ->. unfold match_at in Hm.
    apply run_sound in Hm as (st' & Hs & [= ->]). exists [], []; simpl; repeat split; auto.
  - destruct (match_at false r pre (c :: t)) eqn:Hm.
    + injection H as ->. unfold match_at in Hm.
      apply run_sound in Hm as (st' & Hs & [= ->]). exists [], (c :: t); simpl; repeat split; auto.
    + apply IH in H as (sk & suf' & -> & Hs).
      exists (c :: sk), suf'. simpl. now rewrite <- app_assoc.
Qed.

Lemma between_span pre x suf suf' g g' :
  between (MState pre suf g) (MState (rev x ++ pre) suf' g') = x.
Proof.
  unfold between. cbn [consumed].
  rewrite length_app, Nat.add_sub, firstn_app, Nat.sub_diag, firstn_all.
  cbn [firstn]. rewrite app_nil_r. apply rev_involutive.
Qed.

(** *** The request pattern *)

Ltac crunch :=
  repeat match goal with
         | H : exists _, _ |- _ => destruct H
         | H : _ /\ _ |- _ => destruct H
         end.

Lemma firstn_span (x A B : pystr) :
  A = rev x ++ B -> rev (firstn (length A - length B) A) = x.
Proof.
  intros ->.
  rewrite length_app, Nat.add_sub, firstn_app, Nat.sub_diag, firstn_all.
  cbn [firstn]. rewrite app_nil_r. apply rev_involutive.
Qed.

Ltac group_value :=
  unfold group, between;
  cbn [step set_group at_ groups consumed group_lookup Nat.eqb];
  apply firstn_span; cbn [rev app]; rewrite <- ?app_assoc; reflexivity.

(** C9, as the code has it.  A line is accepted by the request pattern
    only if, after the command and the options, it has white space (one
    character or more, of any kind), two dashes, white space again, the
    payload-type token, white space, and the payload up to a newline. *)
Theorem request_separator line m :
  search request_re line = Some m ->
  exists skipped ws1 ws2 ws3 post,
    line = skipped ++ group m 1 ++ group m 2 ++ ws1 ++ [DASH; DASH] ++ ws2
                   ++ group m 3 ++ ws3 ++ group m 4 ++ NL :: post /\
    Spec.blank ws1 /\ Spec.blank ws2 /\ Spec.blank ws3.
Proof.
  intros H. apply search_from_sound in H as (sk & suf & -> & H).
  unfold request_re, Plus in H. cbn [sem Lit] in H.
  crunch.
  repeat match goal with
         | H : ?x = _ |- _ => is_var x; subst x
         | H : _ = ?x |- _ => is_var x; subst x
         | _ => progress cbn [rest consumed groups step at_ set_group] in *
         end.
  match goal with
  | |- context [group ?m 1] => set (final := m)
  end.
  match goal with
  | |- context [sk ++ COLON :: ?c1 :: ?t1 ++ ?o ++ ?a :: ?a' ++
                DASH :: DASH :: ?b :: ?b' ++ COLON :: ?c3 :: ?t3 ++
                ?c :: ?c' ++ ?c4 :: ?t4 ++ NL :: ?post] =>
      assert (G1 : group final 1 = COLON :: c1 :: t1) by group_value;
      assert (G2 : group final 2 = o) by group_value;
      assert (G3 : group final 3 = COLON :: c3 :: t3) by group_value;
      assert (G4 : group final 4 = c4 :: t4) by group_value;
      exists sk, (a :: a'), (b :: b'), (c :: c'), post
  end.
  rewrite G1, G2, G3, G4. unfold Spec.blank. cbn [forallb].
  repeat match goal with H : _ = true |- _ => rewrite H; clear H end.
  cbn [andb app]. rewrite <- ?app_assoc. cbn [app].
  repeat split; try discriminate.
Qed.

End ReFacts.

(** ** Dictionaries *)

Module DictFacts.

Section DictFacts.

Variable V : Type.

Lemma get_set_same k (v : V) d : Dict.get k (Dict.set k v d) = Some v.
Proof.
  induction d as [|[k' v'] d IH]; simpl.
  - now rewrite str_eqb_refl.
  - destruct (str_eqb k' k) eqn:Hk; simpl; now rewrite Hk.
Qed.

Lemma keys_set k (v : V) d :
  incl (Dict.keys d) (Dict.keys (Dict.set k v d)).
Proof.
  induction d as [|[k' v'] d IH]; simpl.
  - intros x [].
  - destruct (str_eqb k' k); simpl.
    + apply incl_refl.
    + intros x [<-|Hx]; [now left | right; now apply IH].
Qed.

Lemma mem_get k (d : Dict.t V) :
  Dict.mem k d = true <-> exists v, Dict.get k d = Some v.
Proof.
  unfold Dict.mem. destruct (Dict.get k d); split; eauto; try discriminate.
  intros [v [=]].
Qed.

Lemma get_In_keys k (d : Dict.t V) v :
  Dict.get k d = Some v -> In k (Dict.keys d).
Proof.
  induction d as [|[k' v'] d IH]; simpl; [discriminate|].
  destruct (str_eqb k' k) eqn:Hk.
  - apply str_eqb_eq in Hk. now left.
  - right. now apply IH.
Qed.

End DictFacts.

End DictFacts.

(** ** The server *)

Ltac eval_str_eqb :=
  repeat match goal with
         | |- context [str_eqb ?a ?b] =>
             let v := eval vm_compute in (str_eqb a b) in
             change (str_eqb a b) with v
         end.

Section ServerFacts.

Context {C : ChessLib} {U : UnicodeDb} {E : EngineLib C} {A : ArgLib}.

(** *** Properties every step keeps *)

Section Preserved.

Variable R : state -> state -> Prop.
Hypothesis R_refl : forall s, R s s.
Hypothesis R_trans : forall s1 s2 s3, R s1 s2 -> R s2 s3 -> R s1 s3.

Lemma keeps_ret T (x : T) : keeps R (ret x).
Proof. intros s. apply R_refl. Qed.

Lemma keeps_raise T e : keeps R (@raise _ _ T e).
Proof. intros s. apply R_refl. Qed.

Lemma keeps_engines_mem path : keeps R (engines_mem path).
Proof. intros s. apply R_refl. Qed.

Lemma keeps_engines_get path : keeps R (engines_get path).
Proof.
  intros s. unfold engines_get. destruct (Dict.get path (ENGINES s)); apply R_refl.
Qed.

Lemma keeps_bind T T' (m : M T) (f : T -> M T') :
  keeps R m -> (forall x, keeps R (f x)) -> keeps R (bind m f).
Proof.
  intros Hm Hf s. unfold bind. specialize (Hm s).
  destruct (m s) as [[x|e] s1]; simpl in *; auto.
  eapply R_trans; [exact Hm | apply Hf].
Qed.

Lemma keeps_try T (m h : M T) :
  keeps R m -> keeps R h -> keeps R (try_except m h).
Proof.
  intros Hm Hh s. unfold try_except. specialize (Hm s).
  destruct (m s) as [[x|e] s1]; simpl in *; auto.
  eapply R_trans; [exact Hm | apply Hh].
Qed.

(** what the steps that touch the state have to keep *)
Hypothesis R_print : forall text, keeps R (print text).
Hypothesis R_eprint : forall text, keeps R (eprint text).
Hypothesis R_emit : forall out err, keeps R (emit out err).
Hypothesis R_set : forall path h, keeps R (engines_set path h).
Hypothesis R_world : forall w ev s, R s (with_world w ev s).

Lemma keeps_popen path : keeps R (do_popen_uci path).
Proof.
  intros s. unfold do_popen_uci. destruct (popen_uci path (world s)).
  apply R_world.
Qed.

Lemma keeps_ping h : keeps R (do_ping h).
Proof.
  intros s. unfold do_ping. destruct (ping h (world s)). apply R_world.
Qed.

Lemma keeps_analyse h b d : keeps R (do_analyse h b d).
Proof.
  intros s. unfold do_analyse. destruct (analyse h b d (world s)).
  apply R_world.
Qed.

Lemma keeps_quit h : keeps R (do_quit h).
Proof.
  intros s. unfold do_quit. destruct (quit h (world s)). apply R_world.
Qed.

Ltac keeps_steps :=
  repeat first
    [ apply keeps_ret | apply keeps_raise | apply keeps_engines_mem
    | apply keeps_engines_get | apply R_print | apply R_eprint
    | apply R_emit | apply R_set | apply keeps_popen | apply keeps_ping
    | apply keeps_analyse | apply keeps_quit
    | apply keeps_try
    | apply keeps_bind; [|intros]
    | match goal with
      | |- keeps _ (if ?b then _ else _) => destruct b
      | |- keeps _ (match ?x with _ => _ end) => destruct x
      end ].

Lemma keeps_instantiate_engine path : keeps R (instantiate_engine path).
Proof. unfold instantiate_engine. keeps_steps. Qed.

Lemma keeps_quit_all hs : keeps R (quit_all hs).
Proof. induction hs; simpl; keeps_steps. assumption. Qed.

Lemma keeps_cleanup : keeps R cleanup.
Proof. intros s. unfold cleanup. apply keeps_quit_all. Qed.

Lemma keeps_callbacks command handler :
  Dict.get command CALLBACKS = Some handler ->
  forall game board last_move args,
    keeps R (handler game board last_move args).
Proof.
  unfold CALLBACKS, Dict.get.
  repeat match goal with
         | |- (if ?b then _ else _) = _ -> _ => destruct b
         end;
    intros [= <-] game board last_move args;
    unfold pgn_to_fen_callback, pgn_to_board_callback,
      pgn_to_score_callback, pgn_to_mainline_callback;
    keeps_steps.
Qed.

Lemma keeps_listen_body argparser input_str :
  keeps R (listen_body argparser input_str).
Proof.
  unfold listen_body.
  destruct (length input_str =? 0)%nat.
  { keeps_steps. apply keeps_cleanup. }
  destruct (str_eqb input_str [NL]); [keeps_steps|].
  destruct (Re.search request_re input_str); [|keeps_steps].
  destruct (Dict.get (Re.group m 1) CALLBACKS) eqn:Hh; [|keeps_steps].
  destruct (parse_options argparser (Re.group m 2)); [|keeps_steps].
  destruct (negb (str_eqb (Re.group m 3) (py ":pgn"))); [keeps_steps|].
  apply keeps_bind; [unfold do_read_game; keeps_steps|].
  intros [game|]; [|keeps_steps].
  apply keeps_bind; [unfold do_game_board; keeps_steps|]. intros board.
  destruct (replay _ _). keeps_steps.
  now apply keeps_callbacks with (command := Re.group m 1).
Qed.

Lemma keeps_listen_loop argparser stdin :
  keeps R (listen_loop argparser stdin).
Proof.
  induction stdin as [|l stdin IH]; simpl.
  - apply keeps_bind; [apply keeps_listen_body | intros; apply keeps_ret].
  - apply keeps_bind; [apply keeps_listen_body|].
    intros []; [apply keeps_ret | exact IH].
Qed.

Lemma keeps_listen stdin : keeps R (listen stdin).
Proof. apply keeps_listen_loop. Qed.

Lemma keeps_run_hooks hs : keeps R (run_hooks hs).
Proof.
  induction hs as [|[] hs IH]; simpl; keeps_steps; auto.
  apply keeps_cleanup.
Qed.

End Preserved.

(** *** The pool never loses a key *)

Lemma pool_le_refl s : pool_le s s.
Proof. apply incl_refl. Qed.

Lemma pool_le_trans s1 s2 s3 : pool_le s1 s2 -> pool_le s2 s3 -> pool_le s1 s3.
Proof. apply incl_tran. Qed.

Lemma pool_le_set path h : keeps pool_le (engines_set path h).
Proof. intros s. apply DictFacts.keys_set. Qed.

Lemma pool_le_same T (m : M T) :
  (forall s, ENGINES (snd (m s)) = ENGINES s) -> keeps pool_le m.
Proof. intros H s. unfold pool_le. rewrite H. apply incl_refl. Qed.

Lemma pool_le_print text : keeps pool_le (print text).
Proof. now apply pool_le_same. Qed.

Lemma pool_le_eprint text : keeps pool_le (eprint text).
Proof. now apply pool_le_same. Qed.

Lemma pool_le_emit out err : keeps pool_le (emit out err).
Proof. now apply pool_le_same. Qed.

Lemma pool_le_world w ev s : pool_le s (with_world w ev s).
Proof. apply incl_refl. Qed.

Ltac pool_le_side :=
  first [ exact pool_le_refl | exact pool_le_trans | exact pool_le_set
        | exact pool_le_print | exact pool_le_eprint | exact pool_le_emit
        | exact pool_le_world ].

Lemma pool_le_instantiate_engine path : keeps pool_le (instantiate_engine path).
Proof. apply keeps_instantiate_engine; pool_le_side. Qed.

Lemma pool_le_cleanup : keeps pool_le cleanup.
Proof. apply keeps_cleanup; pool_le_side. Qed.

Lemma pool_le_listen_body argparser line :
  keeps pool_le (listen_body argparser line).
Proof. apply keeps_listen_body; pool_le_side. Qed.

Lemma pool_le_listen stdin : keeps pool_le (listen stdin).
Proof. apply keeps_listen; pool_le_side. Qed.

Lemma pool_le_main argv stdin : keeps pool_le (main argv stdin).
Proof.
  unfold main. destruct (is_version_flag argv).
  - apply (keeps_bind pool_le_trans); [apply pool_le_print|].
    intros _ s. apply incl_refl.
  - apply (keeps_bind pool_le_trans); [now apply pool_le_same|].
    intros _. apply pool_le_listen.
Qed.

Lemma pool_le_run_process argv stdin s :
  pool_le s (snd (run_process argv stdin s)).
Proof.
  unfold run_process. pose proof (pool_le_main argv stdin s) as H1.
  destruct (main argv stdin s) as [r s1]. simpl in *.
  destruct (hangs s1); [exact H1|].
  eapply pool_le_trans; [exact H1|].
  apply keeps_run_hooks; pool_le_side.
Qed.

(** C7.  No operation of the server removes a key of the engine pool:
    a key present before [instantiate_engine] (restart on a failed probe
    included), before the handling of a request line, before a whole run
    of [listen], before [cleanup], or before a run of the whole process
    with its exit hooks, is still present afterwards. *)
Theorem pool_keys_monotone (s : state) (k : pystr) :
  In k (Dict.keys (ENGINES s)) ->
  (forall path, In k (Dict.keys (ENGINES (snd (instantiate_engine path s))))) /\
  (forall line,
      In k (Dict.keys (ENGINES (snd (listen_body generate_argparser line s))))) /\
  (forall stdin, In k (Dict.keys (ENGINES (snd (listen stdin s))))) /\
  In k (Dict.keys (ENGINES (snd (cleanup s)))) /\
  (forall argv stdin,
      In k (Dict.keys (ENGINES (snd (run_process argv stdin s))))).
Proof.
  intros Hk. repeat split; intros.
  - now apply pool_le_instantiate_engine.
  - now apply pool_le_listen_body.
  - now apply pool_le_listen.
  - now apply pool_le_cleanup.
  - now apply pool_le_run_process.
Qed.

(** *** Shutdown *)

Lemma same_but_world_refl s : same_but_world s s.
Proof. repeat split. Qed.

Lemma same_but_world_trans s1 s2 s3 :
  same_but_world s1 s2 -> same_but_world s2 s3 -> same_but_world s1 s3.
Proof.
  unfold same_but_world. intros (a & b & c & d) (a' & b' & c' & d').
  repeat split; congruence.
Qed.

Lemma same_but_world_world w ev s : same_but_world s (with_world w ev s).
Proof. repeat split. Qed.

Lemma cleanup_frame : keeps same_but_world cleanup.
Proof.
  apply keeps_cleanup;
    first [ exact same_but_world_refl | exact same_but_world_trans
          | exact same_but_world_world ].
Qed.

(** one pass of the loop of [cleanup] *)
Lemma quit_step h hs s :
  quit_all (h :: hs) s =
  quit_all hs (with_world (after_quit h (world s))
                          (EvQuit h (fst (quit h (world s)))) s).
Proof.
  cbn [quit_all]. unfold bind, try_except, do_quit, after_quit, ret.
  destruct (quit h (world s)) as [[] w]; reflexivity.
Qed.

Lemma quit_all_returns hs : forall s, fst (quit_all hs s) = Ret tt.
Proof.
  induction hs as [|h hs IH]; intros s; [reflexivity|].
  rewrite quit_step. apply IH.
Qed.

Lemma quit_all_trace hs :
  forall s, exists asked,
    trace (snd (quit_all hs s)) = trace s ++ asked /\
    forallb is_quit asked = true /\ quit_requests asked = hs.
Proof.
  induction hs as [|h hs IH]; intros s.
  - exists []. simpl. now rewrite app_nil_r.
  - rewrite quit_step.
    destruct (IH (with_world (after_quit h (world s))
                             (EvQuit h (fst (quit h (world s)))) s))
      as (asked & Ht & Hq & Hr).
    exists (EvQuit h (fst (quit h (world s))) :: asked).
    rewrite Ht. cbn [with_world trace]. rewrite <- app_assoc.
    simpl. now rewrite Hq, Hr.
Qed.

Lemma quit_all_world hs :
  forall s,
    world (snd (quit_all hs s)) = after_quits hs (world s).
Proof.
  induction hs as [|h hs IH]; intros s; [reflexivity|].
  rewrite quit_step, IH. reflexivity.
Qed.

Lemma cleanup_returns s : fst (cleanup s) = Ret tt.
Proof. apply quit_all_returns. Qed.

Lemma listen_body_eof argparser s :
  listen_body argparser [] s = (Ret Break, snd (cleanup s)).
Proof.
  unfold listen_body. cbn [length Nat.eqb]. unfold bind.
  pose proof (cleanup_returns s) as H.
  destruct (cleanup s) as [r s1]. simpl in H. now subst r.
Qed.



Lemma same_hooks_listen stdin : keeps same_hooks (listen stdin).
Proof.
  apply keeps_listen; unfold keeps, same_hooks; intros;
    solve [reflexivity | congruence].
Qed.

Lemma main_registers argv stdin s :
  is_version_flag argv = false ->
  atexit (snd (main argv stdin s)) = atexit s ++ [HookCleanup].
Proof.
  intros Hv. unfold main. rewrite Hv. unfold bind, atexit_register.
  match goal with |- context [listen stdin ?s1] =>
    pose proof (same_hooks_listen stdin s1) as H end.
  unfold same_hooks in H. exact H.
Qed.

(** with one hook registered, the exit of the process runs [cleanup]
    once more, on the state the main program left -- unless an engine
    still runs then: the interpreter waits for it and the hook never
    runs *)
Lemma exit_runs_cleanup argv stdin s :
  is_version_flag argv = false -> atexit s = [] ->
  run_process argv stdin s =
  (fst (main argv stdin s),
   if hangs (snd (main argv stdin s)) then snd (main argv stdin s)
   else snd (cleanup (snd (main argv stdin s)))).
Proof.
  intros Hv H0. unfold run_process.
  pose proof (main_registers argv stdin s Hv) as Hr.
  destruct (main argv stdin s) as [r s1]. cbn [fst snd] in *.
  destruct (hangs s1); [reflexivity|].
  rewrite Hr, H0. cbn [app rev run_hooks run_hook]. unfold bind.
  pose proof (cleanup_returns s1) as Hc.
  destruct (cleanup s1) as [r' s2]. cbn [fst] in Hc. now subst r'.
Qed.


(** *** The engine pool *)

(** the probe and what follows it, the handle being stored *)
Lemma probe_stored path h0 s :
  Dict.get path (ENGINES s) = Some h0 ->
  let r := (try_except (h <- engines_get path ;; do_ping h)
                       (h <- do_popen_uci path ;; engines_set path h) ;;;
            engines_get path) s in
  (exists log, trace (snd r) = trace s ++ log /\ probed path h0 log (fst r)) /\
  (forall h, fst r = Ret h -> Dict.get path (ENGINES (snd r)) = Some h).
Proof.
  intros Hg. cbv zeta. unfold bind, try_except, engines_get. rewrite Hg.
  unfold do_ping. destruct (ping h0 (world s)) as [[] w].
  - cbn [with_world ENGINES]. rewrite Hg.
    cbn [fst snd with_world trace]. split.
    + eexists; split; [reflexivity | constructor].
    + intros h [= <-]. exact Hg.
  - unfold do_popen_uci. cbn [with_world world].
    destruct (popen_uci path w) as [[h|] w'].
    + unfold engines_set. cbn [with_world ENGINES].
      rewrite DictFacts.get_set_same. cbn [fst snd trace]. split.
      * eexists; split; [|constructor]. simpl. now rewrite <- app_assoc.
      * intros h' [= <-]. apply DictFacts.get_set_same.
    + cbn [fst snd with_world trace]. split.
      * eexists; split; [|constructor]. simpl. now rewrite <- app_assoc.
      * discriminate.
Qed.

Lemma instantiate_engine_unfold path s :
  instantiate_engine path s =
  let probe :=
    try_except (h <- engines_get path ;; do_ping h)
               (h <- do_popen_uci path ;; engines_set path h) ;;;
    engines_get path in
  match Dict.get path (ENGINES s) with
  | Some _ => probe s
  | None =>
      match popen_uci path (world s) with
      | (Some h, w) =>
          probe (snd (engines_set path h
                        (with_world w (EvPopen path (Some h)) s)))
      | (None, w) =>
          (Raise EngineError, with_world w (EvPopen path None) s)
      end
  end.
Proof.
  cbv zeta. unfold instantiate_engine.
  unfold bind at 1, engines_mem at 1, Dict.mem.
  destruct (Dict.get path (ENGINES s)); cbn [negb].
  - reflexivity.
  - unfold bind at 1 2, do_popen_uci at 1.
    destruct (popen_uci path (world s)) as [[h|] w]; reflexivity.
Qed.

(** C2, as the code has it.  [instantiate_engine path] starts an engine
    and stores its handle when the pool has none for the path (and ends
    there when that fails); it then probes the stored handle; when the
    probe fails it starts a replacement and stores it over the old one.
    The handle it returns is the one stored for the path: either it has
    answered the probe of this call, or it is the replacement started
    after the failed probe, which is not probed. *)
Theorem instantiate_engine_spec (path : pystr) (s : state) :
  let r := fst (instantiate_engine path s) in
  let s' := snd (instantiate_engine path s) in
  match Dict.get path (ENGINES s) with
  | Some h0 =>
      exists log, trace s' = trace s ++ log /\ probed path h0 log r
  | None =>
      (trace s' = trace s ++ [EvPopen path None] /\
       r = Raise EngineError /\ ENGINES s' = ENGINES s) \/
      (exists h0 log,
          trace s' = trace s ++ EvPopen path (Some h0) :: log /\
          probed path h0 log r)
  end /\
  (forall h, r = Ret h -> Dict.get path (ENGINES s') = Some h).
Proof.
  cbv zeta. rewrite instantiate_engine_unfold. cbv zeta.
  destruct (Dict.get path (ENGINES s)) as [h0|] eqn:Hg.
  - now apply probe_stored.
  - destruct (popen_uci path (world s)) as [[h0|] w].
    + match goal with
      | |- context [(_ ;;; engines_get path) ?s1] =>
          destruct (@probe_stored path h0 s1) as ((log & Ht & Hp) & Hr)
      end.
      { cbn [engines_set snd ENGINES with_world].
        apply DictFacts.get_set_same. }
      split; [|exact Hr]. right. exists h0, log. split; [|exact Hp].
      rewrite Ht. cbn [engines_set snd trace with_world].
      now rewrite <- app_assoc.
    + cbn [fst snd with_world trace ENGINES]. split; [|discriminate]. now left.
Qed.

(** *** Handling one request *)

Lemma callbacks_fen :
  Dict.get (py ":pgn-to-fen") CALLBACKS = Some pgn_to_fen_callback.
Proof. unfold CALLBACKS. cbn [Dict.get]. eval_str_eqb. reflexivity. Qed.

Lemma callbacks_board :
  Dict.get (py ":pgn-to-board") CALLBACKS = Some pgn_to_board_callback.
Proof. unfold CALLBACKS. cbn [Dict.get]. eval_str_eqb. reflexivity. Qed.

Lemma callbacks_score :
  Dict.get (py ":pgn-to-score") CALLBACKS = Some pgn_to_score_callback.
Proof. unfold CALLBACKS. cbn [Dict.get]. eval_str_eqb. reflexivity. Qed.

Lemma callbacks_mainline :
  Dict.get (py ":pgn-to-mainline") CALLBACKS = Some pgn_to_mainline_callback.
Proof. unfold CALLBACKS. cbn [Dict.get]. eval_str_eqb. reflexivity. Qed.

(** the commands of the table *)
Lemma callbacks_cases command handler :
  Dict.get command CALLBACKS = Some handler ->
  (command = py ":pgn-to-fen" /\ handler = pgn_to_fen_callback) \/
  (command = py ":pgn-to-board" /\ handler = pgn_to_board_callback) \/
  (command = py ":pgn-to-score" /\ handler = pgn_to_score_callback) \/
  (command = py ":pgn-to-mainline" /\ handler = pgn_to_mainline_callback).
Proof.
  unfold CALLBACKS. cbn [Dict.get].
  repeat match goal with
         | |- (if str_eqb ?a ?b then _ else _) = _ -> _ =>
             let H := fresh "H" in
             destruct (str_eqb a b) eqn:H;
             [apply str_eqb_eq in H; intros [= <-]; subst; tauto|]
         end.
  discriminate.
Qed.

Lemma search_not_eof line m :
  Re.search request_re line = Some m ->
  (length line =? 0)%nat = false /\ str_eqb line [NL] = false.
Proof.
  intros H. split.
  - destruct line; [vm_compute in H; discriminate | reflexivity].
  - apply str_eqb_neq. intros ->. vm_compute in H. discriminate.
Qed.

Lemma last_default T (l : list T) :
  l <> [] -> forall d d', last l d = last l d'.
Proof.
  induction l as [|x l IH]; [congruence|]. intros _ d d'.
  destruct l as [|y l]; [reflexivity|].
  change (last (y :: l) d = last (y :: l) d'). now apply IH.
Qed.

Lemma replay_fold moves :
  forall board (last : option Move),
    fold_left (fun acc move => (board_push (fst acc) move, Some move))
              moves (board, last) =
    (fold_left board_push moves board, List.last (map Some moves) last).
Proof.
  induction moves as [|mv moves IH]; intros board last; [reflexivity|].
  cbn [fold_left fst]. rewrite IH. f_equal.
  destruct moves as [|mv' moves]; [reflexivity|].
  change (List.last (map Some (mv :: mv' :: moves)) last)
    with (List.last (map Some (mv' :: moves)) last).
  now apply last_default.
Qed.

Lemma replay_spec game board :
  replay board (mainline_moves game) =
  (final_board game board, Spec.last_move (mainline_moves game)).
Proof. apply replay_fold. Qed.

(** reading, and what follows *)
Lemma read_then pgn T (k : option Game -> M T) s :
  (game <- do_read_game pgn ;; k game) s =
  match read_game pgn with
  | None => k None s
  | Some game => k (Some game) (printed s [] (game_errors game))
  end.
Proof. unfold bind, do_read_game. now destruct (read_game pgn). Qed.

Lemma board_then game T (k : Board -> M T) s :
  (board <- do_game_board game ;; k board) s =
  match game_board game with
  | None => (Raise ValueError, s)
  | Some board => k board s
  end.
Proof. unfold bind, do_game_board. now destruct (game_board game). Qed.

(** A well-formed line gets as far as the PGN reader; what it reads
    decides the rest: no game, a game whose board cannot be set up, or a
    call of the handler.  The log of the reader goes to the error stream
    first. *)
Lemma listen_body_request line m handler args s :
  well_formed line m handler args ->
  listen_body generate_argparser line s =
  match read_game (pgn_text (Re.group m 4)) with
  | None => (Raise AttributeError, s)
  | Some game =>
      match game_board game with
      | None => (Raise ValueError, printed s [] (game_errors game))
      | Some board =>
          (reply <- handler game (final_board game board)
                            (Spec.last_move (mainline_moves game)) args ;;
           print (py_str reply) ;;; ret Continue)
            (printed s [] (game_errors game))
      end
  end.
Proof.
  intros (Hs & Hc & Ho & Ht).
  destruct (search_not_eof _ Hs) as (Hlen & Hnl).
  unfold listen_body. rewrite Hlen, Hnl, Hs, Hc, Ho, Ht.
  rewrite str_eqb_refl. cbn [negb].
  rewrite ReFacts.sub_escape. fold (pgn_text (Re.group m 4)).
  rewrite read_then.
  destruct (read_game (pgn_text (Re.group m 4))) as [game|]; [|reflexivity].
  rewrite board_then.
  destruct (game_board game) as [board|]; [|reflexivity].
  now rewrite replay_spec.
Qed.

(** C4.  For a well-formed request the handler is called with the game
    the PGN reader returns for the payload with every backslash-n
    replaced by a newline and two newlines appended, with the initial
    board of that game after every move of its main line was pushed in
    order, and with the last of these moves (none when there is no
    move).  The handler is not called when the reader returns no game,
    nor when the game has no initial board: these two steps of the
    construction raise, out of [listen]. *)
Theorem game_board_construction line m handler args s :
  well_formed line m handler args ->
  listen_body generate_argparser line s =
  match read_game (Spec.unescape (Re.group m 4) ++ [NL; NL]) with
  | None => (Raise AttributeError, s)
  | Some game =>
      let logged := printed s [] (game_errors game) in
      match game_board game with
      | None => (Raise ValueError, logged)
      | Some initial =>
          let board := fold_left board_push (mainline_moves game) initial in
          let last_move := Spec.last_move (mainline_moves game) in
          (reply <- handler game board last_move args ;;
           print (py_str reply) ;;; ret Continue) logged
      end
  end.
Proof.
  intros Hwf. rewrite (listen_body_request s Hwf). reflexivity.
Qed.

(** *** Replies *)

Lemma printed_nil s : printed s [] [] = s.
Proof. destruct s. unfold printed. simpl. now rewrite !app_nil_r. Qed.


Lemma same_streams_refl s : same_streams s s.
Proof. now split. Qed.

Lemma same_streams_trans s1 s2 s3 :
  same_streams s1 s2 -> same_streams s2 s3 -> same_streams s1 s3.
Proof. unfold same_streams. intros [] []. split; congruence. Qed.

Lemma same_streams_set path h : keeps same_streams (engines_set path h).
Proof. intros s. now split. Qed.

Lemma same_streams_world w ev s : same_streams s (with_world w ev s).
Proof. now split. Qed.

(** the score handler prints nothing itself *)
Lemma score_streams game board last_move args :
  keeps same_streams (pgn_to_score_callback game board last_move args).
Proof.
  unfold pgn_to_score_callback.
  apply (keeps_bind same_streams_trans).
  - apply keeps_instantiate_engine;
      first [ exact same_streams_refl | exact same_streams_trans
            | exact same_streams_set | exact same_streams_world ].
  - intros h. apply (keeps_bind same_streams_trans).
    + apply keeps_analyse. exact same_streams_world.
    + intros i s. destruct (info_score i); apply same_streams_refl.
Qed.



(** C3, on the code.  A request for a board in a format that is neither
    [svg] nor [text] puts the diagnostic naming the value on the error
    stream (after the log of the PGN reader, if it logged) -- and the
    line [None] on standard output, since [listen] prints whatever the
    handler returned.  Only a game without an initial board does not get
    that far: it raises before the handler is called. *)
Theorem bad_format_prints_None line m handler args game s :
  well_formed line m handler args ->
  Re.group m 1 = py ":pgn-to-board" ->
  ~ format_known args ->
  read_game (pgn_text (Re.group m 4)) = Some game ->
  listen_body generate_argparser line s =
  match game_board game with
  | Some _ =>
      (Ret Continue,
       printed s [py "None"]
               (game_errors game ++
                [py "Bad pgn-mode -board_format value: " ++ board_format args]))
  | None => (Raise ValueError, printed s [] (game_errors game))
  end.
Proof.
  intros Hwf Hcmd Hfmt Hgame.
  rewrite (listen_body_request s Hwf), Hgame.
  destruct (game_board game) as [board|]; [|reflexivity].
  destruct Hwf as (_ & Hc & _ & _).
  rewrite Hcmd, callbacks_board in Hc. injection Hc as <-.
  unfold pgn_to_board_callback.
  destruct (str_eqb (board_format args) (py "svg")) eqn:H1.
  { apply str_eqb_eq in H1. exfalso. apply Hfmt. now left. }
  destruct (str_eqb (board_format args) (py "text")) eqn:H2.
  { apply str_eqb_eq in H2. exfalso. apply Hfmt. now right. }
  unfold bind, eprint, print, ret, printed.
  cbn [ENGINES stdout stderr atexit world trace py_str].
  now rewrite app_nil_r, <- app_assoc.
Qed.


(** C10.  There is a line the request grammar accepts -- known command,
    options that parse, payload type [:pgn], a payload that is not empty
    -- whose payload is one escaped newline: the text it unescapes to is
    blank, the PGN reader (which returns no game at the end of a text
    without one) gives [None], and [listen] ends with an exception
    instead of a diagnostic: nothing is printed and the lines after it
    are not read. *)
Theorem blank_payload_stops_server (args : Namespace) :
  read_game [NL; NL; NL] = None ->
  parse_options generate_argparser [] = Parsed args ->
  exists line m handler,
    well_formed line m handler args /\
    Re.group m 1 = py ":pgn-to-fen" /\
    Re.group m 4 = [BACKSLASH; LOWER_N] /\
    read_game (pgn_text (Re.group m 4)) = None /\
    forall stdin s, listen (line :: stdin) s = (Raise AttributeError, s).
Proof.
  intros Hblank Hopts.
  set (line := py ":pgn-to-fen -- :pgn \n" ++ [NL]).
  destruct (Re.search request_re line) as [m|] eqn:Hs;
    [|vm_compute in Hs; discriminate].
  assert (G1 : Re.group m 1 = py ":pgn-to-fen")
    by (vm_compute in Hs; injection Hs as <-; reflexivity).
  assert (G2 : Re.group m 2 = [])
    by (vm_compute in Hs; injection Hs as <-; reflexivity).
  assert (G3 : Re.group m 3 = py ":pgn")
    by (vm_compute in Hs; injection Hs as <-; reflexivity).
  assert (G4 : Re.group m 4 = [BACKSLASH; LOWER_N])
    by (vm_compute in Hs; injection Hs as <-; reflexivity).
  assert (Hwf : well_formed line m pgn_to_fen_callback args).
  { repeat split; auto.
    - rewrite G1. apply callbacks_fen.
    - now rewrite G2. }
  assert (Hg : read_game (pgn_text (Re.group m 4)) = None)
    by (rewrite G4; exact Hblank).
  exists line, m, pgn_to_fen_callback.
  split; [exact Hwf|]. split; [exact G1|]. split; [exact G4|].
  split; [exact Hg|].
  intros stdin s. unfold listen. cbn [listen_loop]. unfold bind.
  now rewrite (listen_body_request s Hwf), Hg.
Qed.

(** C6, on the code.  The reply to [:pgn-to-mainline] is [:san] and the
    exported move text, which the handler means to free of the result
    marker at its end with a pattern that asks for white space before
    the last token.  Where white space stands before the last token,
    token and white space are removed; where none does -- the text is a
    single token, as the bare result marker of a game without moves is --
    nothing is removed and the reply carries the marker. *)
Theorem mainline_reply game board last_move args s :
  exists text,
    pgn_to_mainline_callback game board last_move args s =
    (Ret (PStr (py ":san " ++ text)), s) /\
    (Spec.ends_in_token (export_movetext game) ->
     text = Spec.strip_token (export_movetext game)) /\
    (~ Spec.ends_in_token (export_movetext game) ->
     text = export_movetext game).
Proof.
  exists (Re.sub result_re [] (export_movetext game)).
  split; [reflexivity|]. split.
  - apply ReFacts.sub_result_strip.
  - apply ReFacts.sub_result_same.
Qed.

End ServerFacts.

(** ** The theorems at work on the stand-in *)

Lemma prefix_b_app sub b : Spec.prefix_b sub (sub ++ b) = true.
Proof.
  induction sub as [|x sub IH]; simpl; auto. now rewrite N.eqb_refl.
Qed.

Lemma infix_b_unfold sub s :
  Spec.infix_b sub s =
  Spec.prefix_b sub s ||
  match s with [] => false | _ :: s' => Spec.infix_b sub s' end.
Proof. destruct s; reflexivity. Qed.

(** a text that has [sub] inside passes the test *)
Lemma infix_b_complete sub a b : Spec.infix_b sub (a ++ sub ++ b) = true.
Proof.
  induction a as [|x a IH].
  - cbn [app]. now rewrite infix_b_unfold, prefix_b_app.
  - cbn [app]. rewrite infix_b_unfold, IH. apply orb_true_r.
Qed.

Section OnSample.

#[local] Existing Instance Sample.chess.
#[local] Existing Instance Sample.unicode.
#[local] Existing Instance Sample.engines.
#[local] Existing Instance Sample.args.

Ltac by_evaluation := vm_compute; reflexivity.

(** a sample line is well formed: pattern, options and payload type by
    evaluation, the handler by the table *)
Ltac sample_well_formed table_entry :=
  unfold well_formed;
  split; [by_evaluation|];
  split; [apply table_entry|];
  split; by_evaluation.

Lemma fen_line_well_formed :
  well_formed Sample.fen_line (Sample.matched Sample.fen_line)
              pgn_to_fen_callback Sample.default_args.
Proof. sample_well_formed callbacks_fen. Defined.

Lemma score_line_well_formed :
  well_formed Sample.score_line (Sample.matched Sample.score_line)
              pgn_to_score_callback Sample.score_args.
Proof. sample_well_formed callbacks_score. Defined.


Lemma foo_line_well_formed :
  well_formed Sample.foo_line (Sample.matched Sample.foo_line)
              pgn_to_board_callback Sample.foo_args.
Proof. sample_well_formed callbacks_board. Defined.

Lemma bare_line_well_formed :
  well_formed Sample.bare_line (Sample.matched Sample.bare_line)
              pgn_to_mainline_callback Sample.default_args.
Proof. sample_well_formed callbacks_mainline. Defined.


Lemma bad_format_prints_None_witness :
  well_formed Sample.foo_line (Sample.matched Sample.foo_line)
              pgn_to_board_callback Sample.foo_args /\
  ~ format_known Sample.foo_args /\
  listen_body generate_argparser Sample.foo_line Sample.start =
  (Ret Continue,
   printed Sample.start [py "None"]
           [py "Bad pgn-mode -board_format value: " ++ py "foo"]).
Proof.
  assert (Hf : ~ format_known Sample.foo_args).
  { intros [H|H]; vm_compute in H; discriminate. }
  split; [exact foo_line_well_formed|]. split; [exact Hf|].
  rewrite (@bad_format_prints_None Sample.chess Sample.unicode Sample.engines
             Sample.args Sample.foo_line (Sample.matched Sample.foo_line)
             pgn_to_board_callback Sample.foo_args [py "e4"] Sample.start).
  - reflexivity.
  - exact foo_line_well_formed.
  - by_evaluation.
  - exact Hf.
  - by_evaluation.
Defined.

Lemma game_board_construction_witness :
  well_formed Sample.fen_line (Sample.matched Sample.fen_line)
              pgn_to_fen_callback Sample.default_args /\
  listen_body generate_argparser Sample.fen_line Sample.start =
  match read_game (Spec.unescape
                     (Re.group (Sample.matched Sample.fen_line) 4)
                   ++ [NL; NL]) with
  | None => (Raise AttributeError, Sample.start)
  | Some game =>
      let logged := printed Sample.start [] (game_errors game) in
      match game_board game with
      | None => (Raise ValueError, logged)
      | Some initial =>
          let board := fold_left board_push (mainline_moves game) initial in
          let last_move := Spec.last_move (mainline_moves game) in
          (reply <- pgn_to_fen_callback game board last_move
                      Sample.default_args ;;
           print (py_str reply) ;;; ret Continue) logged
      end
  end.
Proof.
  split; [exact fen_line_well_formed|].
  apply (@game_board_construction Sample.chess Sample.unicode Sample.engines
           Sample.args Sample.fen_line (Sample.matched Sample.fen_line)
           pgn_to_fen_callback Sample.default_args Sample.start).
  exact fen_line_well_formed.
Defined.



Lemma blank_payload_stops_server_witness :
  read_game [NL; NL; NL] = None /\
  parse_options generate_argparser [] = Parsed Sample.default_args /\
  exists line m handler,
    well_formed line m handler Sample.default_args /\
    Re.group m 1 = py ":pgn-to-fen" /\
    Re.group m 4 = [BACKSLASH; LOWER_N] /\
    read_game (pgn_text (Re.group m 4)) = None /\
    forall stdin s, listen (line :: stdin) s = (Raise AttributeError, s).
Proof.
  split; [by_evaluation|]. split; [by_evaluation|].
  apply (@blank_payload_stops_server Sample.chess Sample.unicode
           Sample.engines Sample.args Sample.default_args); by_evaluation.
Defined.

Lemma pool_keys_monotone_witness :
  In (py "stockfish") (Dict.keys (ENGINES Sample.crashed)) /\
  In (py "stockfish")
     (Dict.keys (ENGINES (snd (instantiate_engine (py "stockfish")
                                                  Sample.crashed)))) /\
  In (py "stockfish")
     (Dict.keys (ENGINES (snd (listen [Sample.score_line] Sample.crashed)))).
Proof.
  assert (H : In (py "stockfish") (Dict.keys (ENGINES Sample.crashed)))
    by (left; reflexivity).
  split; [exact H|].
  pose proof (@pool_keys_monotone Sample.chess Sample.unicode Sample.engines
                Sample.args Sample.crashed (py "stockfish") H)
    as (H1 & _ & H3 & _).
  split; [apply H1 | apply H3].
Defined.

(** C9, counterexample.  A line with a tab on each side of the two
    dashes, and no space there at all, is accepted and answered. *)
Lemma tab_separator_counterexample :
  Re.search request_re Sample.tabbed_line
    = Some (Sample.matched Sample.tabbed_line) /\
  Re.group (Sample.matched Sample.tabbed_line) 2 = [] /\
  Re.group (Sample.matched Sample.tabbed_line) 3 = py ":pgn" /\
  listen_body generate_argparser Sample.tabbed_line Sample.start =
    (Ret Continue, printed Sample.start [py ":fen e4"] []) /\
  ~ (exists a b, Sample.tabbed_line = a ++ py " -- " ++ b).
Proof.
  split; [by_evaluation|]. split; [by_evaluation|].
  split; [by_evaluation|]. split; [by_evaluation|].
  intros (a & b & H).
  pose proof (infix_b_complete (py " -- ") a b) as Hi.
  rewrite <- H in Hi. vm_compute in Hi. discriminate.
Qed.

Lemma request_separator_witness :
  Re.search request_re Sample.tabbed_line
    = Some (Sample.matched Sample.tabbed_line) /\
  exists skipped ws1 ws2 ws3 post,
    Sample.tabbed_line =
    skipped ++ Re.group (Sample.matched Sample.tabbed_line) 1
            ++ Re.group (Sample.matched Sample.tabbed_line) 2
            ++ ws1 ++ [DASH; DASH] ++ ws2
            ++ Re.group (Sample.matched Sample.tabbed_line) 3 ++ ws3
            ++ Re.group (Sample.matched Sample.tabbed_line) 4
            ++ NL :: post /\
    Spec.blank ws1 /\ Spec.blank ws2 /\ Spec.blank ws3.
Proof.
  split; [by_evaluation|].
  apply (@ReFacts.request_separator Sample.tabbed_line
           (Sample.matched Sample.tabbed_line)).
  by_evaluation.
Defined.

(** C2, counterexample.  The engine stored for the path has gone: the
    probe fails, a replacement is started and returned, and nobody has
    probed it. *)
Lemma unprobed_replacement_counterexample :
  fst (instantiate_engine (py "stockfish") Sample.crashed) = Ret 1%nat /\
  Dict.get (py "stockfish")
    (ENGINES (snd (instantiate_engine (py "stockfish") Sample.crashed)))
    = Some 1%nat /\
  trace (snd (instantiate_engine (py "stockfish") Sample.crashed))
    = [EvPing 0%nat false; EvPopen (py "stockfish") (Some 1%nat)] /\
  ~ known_live 1%nat
      (trace (snd (instantiate_engine (py "stockfish") Sample.crashed))).
Proof.
  assert (Ht : trace (snd (instantiate_engine (py "stockfish") Sample.crashed))
               = [EvPing 0%nat false; EvPopen (py "stockfish") (Some 1%nat)])
    by by_evaluation.
  split; [by_evaluation|]. split; [by_evaluation|]. split; [exact Ht|].
  rewrite Ht. intros (before & after & H & _).
  destruct before as [|e1 [|e2 [|e3 before]]]; simpl in H;
    discriminate.
Qed.

(** C6, at the failing input.  A game without moves: the exporter gives
    the bare result marker, and the reply still carries it. *)
Lemma bare_result_counterexample :
  well_formed Sample.bare_line (Sample.matched Sample.bare_line)
              pgn_to_mainline_callback Sample.default_args /\
  read_game (pgn_text (Re.group (Sample.matched Sample.bare_line) 4))
    = Some [] /\
  @mainline_moves Sample.chess [] = [] /\
  @export_movetext Sample.chess [] = py "*" /\
  listen_body generate_argparser Sample.bare_line Sample.start =
    (Ret Continue, printed Sample.start [py ":san *"] []) /\
  py ":san *" <> py ":san " ++ Spec.strip_token (@export_movetext Sample.chess []).
Proof.
  split; [exact bare_line_well_formed|].
  split; [by_evaluation|]. split; [by_evaluation|].
  split; [by_evaluation|]. split; [by_evaluation|].
  intros H. vm_compute in H. discriminate.
Qed.

(** a move the reader does not accept: the reply is there, and the log of
    the reader is on the error stream *)
Lemma twice_line_logged :
  listen_body generate_argparser Sample.twice_line Sample.start =
  (Ret Continue,
   printed Sample.start [py ":fen e4/e4"] [py "illegal san: e4"]).
Proof. by_evaluation. Qed.


End OnSample.

(** * More of the server *)

Section LoopFacts.

Context {C : ChessLib} {U : UnicodeDb} {E : EngineLib C} {A : ArgLib}.

(** *** Lines that are not requests *)

Lemma eprint_continue (d : pystr) (s : state) :
  (eprint d ;;; ret Continue) s = (Ret Continue, printed s [] [d]).
Proof.
  unfold bind, eprint, ret, printed. cbn [stdout]. now rewrite app_nil_r.
Qed.

(** A line that is not the end of input is a well-formed request, or it
    is dropped. *)
Lemma listen_body_dichotomy (line : pystr) (s : state) :
  line <> [] ->
  (exists m handler args, well_formed line m handler args) \/
  (exists out err,
      listen_body generate_argparser line s
        = (Ret Continue, printed s out err) /\
      (out = [] \/
       exists m e, Re.search request_re line = Some m /\
                   parse_options generate_argparser (Re.group m 2)
                     = Exited out e) /\
      (err = [] <-> line = [NL])).
Proof.
  intros Hne. unfold listen_body.
  destruct line as [|c line]; [congruence|]. cbn [length Nat.eqb].
  destruct (str_eqb (c :: line) [NL]) eqn:Hnl.
  { apply str_eqb_eq in Hnl. right. exists [], []. rewrite printed_nil.
    split; [reflexivity|]. split; [now left|]. now split. }
  apply str_eqb_neq in Hnl.
  assert (Hdiag : forall (err : list pystr) d,
             err ++ [d] = [] <-> c :: line = [NL]).
  { intros err d. split; intros H; [|congruence].
    destruct err; discriminate. }
  destruct (Re.search request_re (c :: line)) as [m|] eqn:Hs.
  2:{ right. eexists [], [_]. split; [apply eprint_continue|].
      split; [now left|]. apply (Hdiag []). }
  destruct (Dict.get (Re.group m 1) CALLBACKS) as [handler|] eqn:Hc.
  2:{ right. eexists [], [_]. split; [apply eprint_continue|].
      split; [now left|]. apply (Hdiag []). }
  destruct (parse_options generate_argparser (Re.group m 2))
    as [args|out err] eqn:Ho.
  2:{ right. eexists out, (err ++ [_]). split.
      - unfold bind, emit, eprint, ret, printed.
        cbn [stdout stderr ENGINES atexit world trace].
        now rewrite app_assoc.
      - split; [right; now exists m, err|]. apply Hdiag. }
  destruct (str_eqb (Re.group m 3) (py ":pgn")) eqn:Ht; cbn [negb].
  { left. exists m, handler, args.
    apply str_eqb_eq in Ht. repeat split; assumption. }
  right. eexists [], [_]. split; [apply eprint_continue|].
  split; [now left|]. apply (Hdiag []).
Qed.

(** X1.  A line that is not the end of input and is not a well-formed
    request is dropped: the turn of the loop ends normally and the loop
    goes on; pool, hooks, world and log of engine calls are as before;
    standard output gets nothing, unless the option parser wrote there
    before it gave up; the error stream gets a diagnostic, except for
    the empty line, which is passed over in silence. *)
Theorem malformed_line_dropped (line : pystr) (s : state) :
  line <> [] ->
  ~ (exists m handler args, well_formed line m handler args) ->
  exists out err,
    listen_body generate_argparser line s = (Ret Continue, printed s out err) /\
    (out = [] \/
     exists m e, Re.search request_re line = Some m /\
                 parse_options generate_argparser (Re.group m 2) = Exited out e) /\
    (err = [] <-> line = [NL]).
Proof.
  intros Hne Hwf.
  destruct (listen_body_dichotomy s Hne) as [H|H]; [contradiction | exact H].
Qed.

(** *** Handlers that ask no engine *)

Lemma quiet_handlers command handler :
  Dict.get command CALLBACKS = Some handler ->
  command <> py ":pgn-to-score" ->
  forall game board last_move args,
  exists v out err,
    forall s, handler game board last_move args s = (Ret v, printed s out err).
Proof.
  intros Hc Hns game board last_move args.
  destruct (callbacks_cases _ Hc) as
      [[Hcmd ->]|[[Hcmd ->]|[[Hcmd ->]|[Hcmd ->]]]]; [| |contradiction|].
  - eexists _, [], []. intros s. now rewrite printed_nil.
  - unfold pgn_to_board_callback.
    destruct (str_eqb (board_format args) (py "svg")).
    { eexists _, [], []. intros s. now rewrite printed_nil. }
    destruct (str_eqb (board_format args) (py "text")).
    { eexists _, [], []. intros s. now rewrite printed_nil. }
    eexists PNone, [], [_]. intros s.
    unfold bind, eprint, ret, printed. cbn [stdout]. now rewrite app_nil_r.
  - eexists _, [], []. intros s. now rewrite printed_nil.
Qed.


End LoopFacts.

Module DictMore.

Section DictMore.

Variable V : Type.

Lemma get_set_other k k' (v : V) d :
  k <> k' -> Dict.get k (Dict.set k' v d) = Dict.get k d.
Proof.
  intros Hk. induction d as [|[k0 v0] d IH]; simpl.
  - destruct (str_eqb k' k) eqn:H; [|reflexivity].
    apply str_eqb_eq in H. congruence.
  - destruct (str_eqb k0 k') eqn:H0; simpl.
    + apply str_eqb_eq in H0. subst k0.
      destruct (str_eqb k' k) eqn:H; [|reflexivity].
      apply str_eqb_eq in H. congruence.
    + now rewrite IH.
Qed.

End DictMore.

End DictMore.

Section EngineUse.

Context {C : ChessLib} {U : UnicodeDb} {E : EngineLib C} {A : ArgLib}.

(** *** How the pool is used *)

(** the probe, on a state that has the handle stored and alive *)
Lemma instantiate_engine_live path s h w :
  Dict.get path (ENGINES s) = Some h ->
  ping h (world s) = (true, w) ->
  instantiate_engine path s = (Ret h, with_world w (EvPing h true) s).
Proof.
  intros Hg Hp. rewrite instantiate_engine_unfold. cbv zeta. rewrite Hg.
  unfold bind, try_except, engines_get. rewrite Hg.
  unfold do_ping. rewrite Hp. cbn [with_world ENGINES]. now rewrite Hg.
Qed.

(** what it returns is stored, and it raises in one way only *)
Lemma instantiate_engine_result path s :
  (forall h, fst (instantiate_engine path s) = Ret h ->
             Dict.get path (ENGINES (snd (instantiate_engine path s))) = Some h) /\
  (forall e, fst (instantiate_engine path s) = Raise e -> e = EngineError).
Proof.
  rewrite instantiate_engine_unfold. cbv zeta.
  assert (Hprobe : forall s0 h0,
             Dict.get path (ENGINES s0) = Some h0 ->
             let r := (try_except (h <- engines_get path ;; do_ping h)
                         (h <- do_popen_uci path ;; engines_set path h) ;;;
                       engines_get path) s0 in
             (forall h, fst r = Ret h ->
                        Dict.get path (ENGINES (snd r)) = Some h) /\
             (forall e, fst r = Raise e -> e = EngineError)).
  { intros s0 h0 Hg. destruct (probe_stored path s0 Hg) as ((log & _ & Hp) & Hr).
    cbv zeta. split; [exact Hr|].
    intros e He. rewrite He in Hp. now inversion Hp. }
  destruct (Dict.get path (ENGINES s)) as [h0|] eqn:Hg.
  - now apply Hprobe with (h0 := h0).
  - destruct (popen_uci path (world s)) as [[h0|] w].
    + apply Hprobe with (h0 := h0).
      cbn [engines_set snd ENGINES with_world].
      apply DictFacts.get_set_same.
    + cbn [fst snd]. split; [discriminate|]. now intros e [= <-].
Qed.

(** X10.  Engine reuse.  Once [instantiate_engine] has returned a handle
    for a path, a later call for the same path -- from any state with the
    same pool, such as the one the previous request left -- in which the
    handle answers the probe returns that same handle, starts no engine,
    and changes nothing but the world and its log, by the one probe. *)
Theorem engine_reused path s h s1 :
  instantiate_engine path s = (Ret h, s1) ->
  forall s2 w,
    ENGINES s2 = ENGINES s1 ->
    ping h (world s2) = (true, w) ->
    instantiate_engine path s2 = (Ret h, with_world w (EvPing h true) s2).
Proof.
  intros H1 s2 w He Hp.
  destruct (instantiate_engine_result path s) as (Hr & _).
  rewrite H1 in Hr. cbn [fst snd] in Hr.
  apply instantiate_engine_live; [|exact Hp].
  rewrite He. now apply Hr.
Qed.

(** the keys other than the one asked for keep their handles *)
Lemma instantiate_engine_other path s k :
  k <> path ->
  Dict.get k (ENGINES (snd (instantiate_engine path s))) = Dict.get k (ENGINES s).
Proof.
  intros Hk. rewrite instantiate_engine_unfold. cbv zeta.
  assert (Hprobe : forall s0,
             Dict.get k (ENGINES (snd
               ((try_except (h <- engines_get path ;; do_ping h)
                   (h <- do_popen_uci path ;; engines_set path h) ;;;
                 engines_get path) s0))) = Dict.get k (ENGINES s0)).
  { intros s0. unfold bind, try_except, engines_get.
    destruct (Dict.get path (ENGINES s0)) as [h0|] eqn:Hg.
    - unfold do_ping. destruct (ping h0 (world s0)) as [[] w].
      + cbn [with_world ENGINES]. now rewrite Hg.
      + unfold do_popen_uci. cbn [with_world world].
        destruct (popen_uci path w) as [[h|] w'].
        * unfold engines_set. cbn [with_world ENGINES].
          rewrite DictFacts.get_set_same. cbn [snd ENGINES].
          now apply DictMore.get_set_other.
        * reflexivity.
    - unfold do_popen_uci. destruct (popen_uci path (world s0)) as [[h|] w'].
      + unfold engines_set. cbn [with_world ENGINES].
        rewrite DictFacts.get_set_same. cbn [snd ENGINES].
        now apply DictMore.get_set_other.
      + reflexivity. }
  destruct (Dict.get path (ENGINES s)) as [h0|].
  - apply Hprobe.
  - destruct (popen_uci path (world s)) as [[h0|] w].
    + rewrite Hprobe. cbn [engines_set snd ENGINES with_world].
      now apply DictMore.get_set_other.
    + reflexivity.
Qed.

Lemma score_other game board last_move args s k :
  k <> engine args ->
  Dict.get k (ENGINES (snd (pgn_to_score_callback game board last_move args s)))
  = Dict.get k (ENGINES s).
Proof.
  intros Hk. unfold pgn_to_score_callback, bind.
  pose proof (instantiate_engine_other s Hk) as H.
  destruct (instantiate_engine (engine args) s) as [[h|e] s0];
    cbn [snd] in H; [|exact H].
  unfold do_analyse.
  destruct (analyse h board (depth args) (world s0)) as [[i|] w];
    [|exact H].
  destruct (info_score i); exact H.
Qed.

(** how the score handler can raise *)
Lemma score_raises game board last_move args s e s' :
  pgn_to_score_callback game board last_move args s = (Raise e, s') ->
  e = EngineError \/ e = KeyError.
Proof.
  unfold pgn_to_score_callback, bind.
  destruct (instantiate_engine_result (engine args) s) as (_ & Hr).
  destruct (instantiate_engine (engine args) s) as [[h|e0] s0].
  - unfold do_analyse.
    destruct (analyse h board (depth args) (world s0)) as [[i|] w].
    + destruct (info_score i); [discriminate|]. intros [= <- _]. now right.
    + intros [= <- _]. now left.
  - intros [= <- _]. left. now apply Hr.
Qed.

(** X2.  The turn of the loop for a line raises in three ways only, all
    on well-formed requests: the payload reads as no game (an attribute
    error on [None], with the state untouched); the game read has no
    initial board (a value error, after the log of the reader went to
    the error stream); or the request is [:pgn-to-score] and the handler
    raised -- an engine call failed or the analysis carries no score --,
    with nothing printed but that log.  Unknown commands, options that do
    not parse, unknown payload types and lines that do not match never
    end the loop. *)
Theorem listen_body_raises (line : pystr) (s : state) (e : exn) (s' : state) :
  listen_body generate_argparser line s = (Raise e, s') ->
  exists m handler args,
    well_formed line m handler args /\
    ((read_game (pgn_text (Re.group m 4)) = None /\
      e = AttributeError /\ s' = s) \/
     (exists game,
         read_game (pgn_text (Re.group m 4)) = Some game /\
         let logged := printed s [] (game_errors game) in
         (game_board game = None /\ e = ValueError /\ s' = logged) \/
         (game_board game <> None /\
          Re.group m 1 = py ":pgn-to-score" /\
          (e = EngineError \/ e = KeyError) /\ same_streams logged s'))).
Proof.
  intros H.
  destruct line as [|c line].
  { rewrite listen_body_eof in H. discriminate. }
  destruct (@listen_body_dichotomy _ _ _ _ (c :: line) s) as
      [(m & handler & args & Hwf)|(out & err & Hd & _)]; [discriminate| |].
  2:{ rewrite Hd in H. discriminate. }
  exists m, handler, args. split; [exact Hwf|].
  rewrite (listen_body_request s Hwf) in H.
  destruct (read_game (pgn_text (Re.group m 4))) as [game|].
  2:{ left. injection H as <- <-. auto. }
  right. exists game. split; [reflexivity|]. cbv zeta.
  destruct (game_board game) as [board|].
  2:{ left. injection H as <- <-. auto. }
  right. split; [discriminate|].
  destruct Hwf as (_ & Hc & _ & _).
  destruct (Dict.get (Re.group m 1) CALLBACKS) as [h0|] eqn:Hc0;
    [|discriminate].
  injection Hc as ->.
  destruct (list_eq_dec N.eq_dec (Re.group m 1) (py ":pgn-to-score"))
    as [Hcmd|Hcmd].
  - split; [exact Hcmd|].
    rewrite Hcmd, callbacks_score in Hc0. injection Hc0 as <-.
    unfold bind in H.
    pose proof (score_streams game (final_board game board)
                  (Spec.last_move (mainline_moves game)) args
                  (printed s [] (game_errors game))) as Hst.
    destruct (pgn_to_score_callback game (final_board game board)
                (Spec.last_move (mainline_moves game)) args
                (printed s [] (game_errors game)))
      as [[v|e0] s0] eqn:Hv; [discriminate|].
    injection H as <- <-. split; [|exact Hst].
    eapply score_raises. exact Hv.
  - exfalso.
    destruct (quiet_handlers Hc0 Hcmd game
                (final_board game board)
                (Spec.last_move (mainline_moves game)) args)
      as (v & out & err & Hv).
    unfold bind in H. rewrite Hv in H. discriminate.
Qed.

(** X12.  A turn of the loop changes the handle the pool holds for a
    path only when the line is a well-formed [:pgn-to-score] request
    whose [engine] option is that path: no other request, and no other
    engine's request, starts, replaces or drops it. *)
Theorem pool_touched_only_by_score (line : pystr) (s : state) (k : pystr) :
  Dict.get k (ENGINES (snd (listen_body generate_argparser line s)))
    <> Dict.get k (ENGINES s) ->
  exists m handler args,
    well_formed line m handler args /\
    Re.group m 1 = py ":pgn-to-score" /\ engine args = k.
Proof.
  intros H.
  destruct line as [|c line].
  { exfalso. apply H. rewrite listen_body_eof. cbn [snd].
    now destruct (cleanup_frame s) as (-> & _). }
  destruct (@listen_body_dichotomy _ _ _ _ (c :: line) s) as
      [(m & handler & args & Hwf)|(out & err & Hd & _)]; [discriminate| |].
  2:{ exfalso. apply H. now rewrite Hd. }
  exists m, handler, args. split; [exact Hwf|].
  rewrite (listen_body_request s Hwf) in H.
  destruct (read_game (pgn_text (Re.group m 4))) as [game|].
  2:{ exfalso. now apply H. }
  destruct (game_board game) as [board|].
  2:{ exfalso. now apply H. }
  destruct Hwf as (_ & Hc & _ & _).
  destruct (list_eq_dec N.eq_dec (Re.group m 1) (py ":pgn-to-score"))
    as [Hcmd|Hcmd].
  - split; [exact Hcmd|].
    rewrite Hcmd, callbacks_score in Hc. injection Hc as <-.
    destruct (list_eq_dec N.eq_dec k (engine args)) as [Hk|Hk]; [auto|].
    exfalso. apply H. unfold bind.
    pose proof (@score_other game (final_board game board)
                  (Spec.last_move (mainline_moves game)) args
                  (printed s [] (game_errors game)) k Hk) as Ho.
    destruct (pgn_to_score_callback game (final_board game board)
                (Spec.last_move (mainline_moves game)) args
                (printed s [] (game_errors game)))
      as [[v|e0] s0]; exact Ho.
  - exfalso. apply H.
    destruct (quiet_handlers Hc Hcmd game
                (final_board game board)
                (Spec.last_move (mainline_moves game)) args)
      as (v & out & err & Hv).
    unfold bind. now rewrite Hv.
Qed.

End EngineUse.

Section ProcessFacts.

Context {C : ChessLib} {U : UnicodeDb} {E : EngineLib C} {A : ArgLib}.

(** *** The loop and the process *)

Lemma listen_body_empty_line argparser s :
  listen_body argparser [NL] s = (Ret Continue, s).
Proof. reflexivity. Qed.

(** X3.  Empty lines are keep-alives: taking one out of the input,
    wherever it stands, changes neither how [listen] ends nor the state
    it leaves. *)
Theorem empty_line_ignored (before after : list pystr) (s : state) :
  listen (before ++ [NL] :: after) s = listen (before ++ after) s.
Proof.
  unfold listen. revert s.
  induction before as [|l before IH]; intros s.
  - cbn [app listen_loop]. unfold bind. now rewrite listen_body_empty_line.
  - cbn [app listen_loop]. unfold bind.
    destruct (listen_body generate_argparser l s) as [[[]|e] s1];
      [reflexivity | apply IH | reflexivity].
Qed.

(** X4.  With the version flag as first argument the process prints the
    version and exits with status 0: no line of input is read, no hook is
    registered, no engine is touched. *)
Theorem version_flag_only (argv stdin : list pystr) (s : state) :
  is_version_flag argv = true ->
  atexit s = [] ->
  run_process argv stdin s =
  (Raise (SystemExit 0), printed s [__version__] []).
Proof.
  intros Hv H0. unfold run_process, main. rewrite Hv.
  destruct s as [pool out err hooks w log]. cbn [atexit] in H0. subst hooks.
  unfold bind, print, raise, printed. cbn.
  rewrite app_nil_r. now destruct (hangs _).
Qed.

(** the turn of the loop breaks only at the end of input *)
Lemma listen_body_break line s s1 :
  listen_body generate_argparser line s = (Ret Break, s1) ->
  line = [] /\ s1 = snd (cleanup s).
Proof.
  intros H. destruct line as [|c line].
  { rewrite listen_body_eof in H. now injection H as <-. }
  exfalso.
  destruct (@listen_body_dichotomy _ _ _ _ (c :: line) s) as
      [(m & handler & args & Hwf)|(out & err & Hd & _)]; [discriminate| |].
  2:{ rewrite Hd in H. discriminate. }
  rewrite (listen_body_request s Hwf) in H.
  destruct (read_game (pgn_text (Re.group m 4))) as [game|];
    [|discriminate].
  destruct (game_board game) as [board|]; [|discriminate].
  unfold bind in H.
  destruct (handler game (final_board game board)
              (Spec.last_move (mainline_moves game)) args
              (printed s [] (game_errors game))) as [[v|e] s0];
    discriminate.
Qed.

(** a loop that ends normally has just run [cleanup] *)
Lemma listen_normal_end stdin :
  forall s,
    fst (listen stdin s) = Ret tt ->
    exists s0, snd (listen stdin s) = snd (cleanup s0).
Proof.
  unfold listen.
  induction stdin as [|l stdin IH]; intros s H.
  - exists s. cbn [listen_loop]. unfold bind.
    now rewrite listen_body_eof.
  - cbn [listen_loop] in *. unfold bind in *.
    destruct (listen_body generate_argparser l s) as [[[]|e] s1] eqn:Hl.
    + apply listen_body_break in Hl as (_ & ->). now exists s.
    + now apply IH.
    + discriminate.
Qed.

Lemma cleanup_asks s :
  exists asked,
    trace (snd (cleanup s)) = trace s ++ asked /\
    forallb is_quit asked = true /\
    quit_requests asked = Dict.values (ENGINES (snd (cleanup s))).
Proof.
  destruct (cleanup_frame s) as (He & _). rewrite He.
  apply quit_all_trace.
Qed.

(** X5.  Shutdown.  The main program of a server process having ended --
    at the end of input or by an exception out of the loop --, the
    interpreter waits for the engines.  With an engine still running the
    wait has no end: the hook never runs, nobody is asked to quit, and
    the process stays in the state the main program left.  Otherwise the
    hook runs, and the last thing the process does is ask every handle of
    the pool to quit, in the order of the pool; when the loop ended at
    the end of input this is the second round: the loop had asked all of
    them once already. *)
Theorem exit_quits_every_engine (argv stdin : list pystr) (s : state) :
  is_version_flag argv = false ->
  atexit s = [] ->
  let r := fst (main argv stdin s) in
  let s1 := snd (main argv stdin s) in
  let s' := snd (run_process argv stdin s) in
  fst (run_process argv stdin s) = r /\
  (hangs s1 = true -> s' = s1) /\
  (hangs s1 = false ->
   s' = snd (cleanup s1) /\
   (exists asked,
       trace s' = trace s1 ++ asked /\ forallb is_quit asked = true /\
       quit_requests asked = Dict.values (ENGINES s')) /\
   (r = Ret tt ->
    exists before asked1 asked2,
      trace s' = before ++ asked1 ++ asked2 /\
      forallb is_quit (asked1 ++ asked2) = true /\
      quit_requests asked1 = Dict.values (ENGINES s') /\
      quit_requests asked2 = Dict.values (ENGINES s'))).
Proof.
  intros Hv H0. cbv zeta.
  rewrite (exit_runs_cleanup argv stdin s Hv H0). cbn [fst snd].
  split; [reflexivity|].
  destruct (hangs (snd (main argv stdin s))).
  { split; [reflexivity | discriminate]. }
  split; [discriminate|]. intros _. split; [reflexivity|]. split.
  - apply cleanup_asks.
  - set (s0 := State (ENGINES s) (stdout s) (stderr s)
                     (atexit s ++ [HookCleanup]) (world s) (trace s)).
    assert (Hm : main argv stdin s = listen stdin s0).
    { unfold main. now rewrite Hv. }
    rewrite Hm.
    intros Hn.
    destruct (listen_normal_end stdin s0 Hn) as (s1 & H1).
    rewrite H1.
    destruct (cleanup_asks s1) as (a1 & Ht1 & Hq1 & Hw1).
    destruct (cleanup_asks (snd (cleanup s1))) as (a2 & Ht2 & Hq2 & Hw2).
    exists (trace s1), a1, a2. rewrite Ht2, Ht1, <- app_assoc.
    split; [reflexivity|]. rewrite forallb_app, Hq1, Hq2.
    split; [reflexivity|]. split; [|exact Hw2].
    rewrite Hw1. now destruct (cleanup_frame (snd (cleanup s1))) as (-> & _).
Qed.

End ProcessFacts.

Module TextFacts.

Import Re ReFacts.

(** *** Escaped newlines *)

Lemma match_chr c0 pre suf :
  match_at false (Chr c0) pre suf =
  match suf with
  | c :: t => if (c =? c0)%N then Some (MState (c :: pre) t []) else None
  | [] => None
  end.
Proof.
  unfold match_at. simpl. destruct suf as [|c t]; [reflexivity|].
  now destruct (c =? c0)%N.
Qed.

(** replacing one character by a fixed text, everywhere *)
Lemma sub_chr c0 lit s :
  sub (Chr c0) [TLit lit] s =
  flat_map (fun c => if (c =? c0)%N then lit else [c]) s.
Proof.
  unfold sub. generalize (@nil pychar) as pre.
  induction s as [|c t IH]; intros pre.
  - now rewrite sub_walk_0, match_chr.
  - rewrite sub_walk_0, match_chr. cbn [flat_map].
    destruct (c =? c0)%N.
    + cbn [consumed length expand flat_map].
      replace (S (length pre) - length pre)%nat with 1%nat by lia.
      rewrite app_nil_r. f_equal. apply IH.
    + cbn [app]. f_equal. apply IH.
Qed.


Lemma unescape_cons2 c d t :
  Spec.unescape (c :: d :: t) =
  if (c =? BACKSLASH)%N && (d =? LOWER_N)%N
  then NL :: Spec.unescape t else c :: Spec.unescape (d :: t).
Proof. reflexivity. Qed.

Lemma unescape_escaped text :
  (forall a b, text <> a ++ BACKSLASH :: LOWER_N :: b) ->
  Spec.unescape
    (flat_map (fun c => if (c =? NL)%N then [BACKSLASH; LOWER_N] else [c]) text)
  = text.
Proof.
  induction text as [|c t IH]; intros Hno; [reflexivity|].
  assert (Ht : forall a b, t <> a ++ BACKSLASH :: LOWER_N :: b).
  { intros a b ->. now apply (Hno (c :: a) b). }
  specialize (IH Ht). cbn [flat_map].
  destruct (c =? NL)%N eqn:Hc.
  - apply N.eqb_eq in Hc. subst c. cbn [app].
    rewrite unescape_cons2. cbn. now rewrite IH.
  - cbn [app]. destruct t as [|x t'].
    + reflexivity.
    + cbn [flat_map] in *.
      destruct (x =? NL)%N eqn:Hx.
      * cbn [app] in *. rewrite unescape_cons2.
        replace (BACKSLASH =? LOWER_N)%N with false by reflexivity.
        rewrite andb_false_r. now rewrite IH.
      * cbn [app] in *. rewrite unescape_cons2.
        destruct ((c =? BACKSLASH)%N && (x =? LOWER_N)%N) eqn:Hcx.
        -- apply andb_true_iff in Hcx as [H1 H2].
           apply N.eqb_eq in H1, H2. subst c x.
           exfalso. now apply (Hno [] t').
        -- now rewrite IH.
Qed.

(** X7.  The escaping of the board text and the unescaping of the request
    payload are inverse to each other: on a text without a backslash
    followed by [n], replacing every newline by backslash-n as
    [pgn_to_board_callback] does and then every backslash-n by a newline
    as [listen] does gives the text back. *)
Theorem escape_unescape_round_trip (text : pystr) :
  (forall a b, text <> a ++ BACKSLASH :: LOWER_N :: b) ->
  sub (Lit [BACKSLASH; LOWER_N]) [TLit [NL]]
      (sub (Chr NL) [TLit (py "\n")] text) = text.
Proof.
  intros H. rewrite sub_escape, sub_chr.
  change (py "\n") with [BACKSLASH; LOWER_N].
  now apply unescape_escaped.
Qed.

(** *** The text board *)

Ltac concrete_glyphs H :=
  let g := eval vm_compute in (py "♜♞♝♛♚♟♖♘♗♕♔♙") in
  change (py "♜♞♝♛♚♟♖♘♗♕♔♙") with g in H; cbn [In] in H.

Lemma glyph_is_key c :
  In c (py "♜♞♝♛♚♟♖♘♗♕♔♙") ->
  trans_lookup c (maketrans (py "♜♞♝♛♚♟♖♘♗♕♔♙") (py "RNBQKPrnbqkp")) <> None.
Proof.
  intros H. concrete_glyphs H.
  repeat (destruct H as [<-|H]; [vm_compute; discriminate|]).
  destruct H.
Qed.

(** neither a backslash, nor an [n], nor a letter of the table *)
Lemma no_glyph_below c : In c (py "♜♞♝♛♚♟♖♘♗♕♔♙") -> (256 <= c)%N.
Proof.
  intros H. concrete_glyphs H.
  repeat (destruct H as [<-|H]; [vm_compute; discriminate|]).
  destruct H.
Qed.

Lemma letter_is_no_glyph x y :
  trans_lookup x (maketrans (py "♜♞♝♛♚♟♖♘♗♕♔♙") (py "RNBQKPrnbqkp")) = Some y ->
  (y < 256)%N.
Proof.
  let t := eval vm_compute in
             (maketrans (py "♜♞♝♛♚♟♖♘♗♕♔♙") (py "RNBQKPrnbqkp")) in
  change (maketrans (py "♜♞♝♛♚♟♖♘♗♕♔♙") (py "RNBQKPrnbqkp")) with t.
  cbn [trans_lookup].
  repeat match goal with
         | |- (if ?b then _ else _) = _ -> _ =>
             destruct b; [intros [= <-]; reflexivity|]
         end.
  discriminate.
Qed.

End TextFacts.

Section BoardText.

Context {U : UnicodeDb}.

(** X6.  The text board fits on one line and is plain: whatever the
    library draws, the text [pgn_to_board_callback] makes of it has no
    newline in it and none of the twelve chess piece characters. *)
Theorem board_text_one_line (unicode : pystr) :
  ~ In NL (board_text unicode) /\
  (forall c, In c (py "♜♞♝♛♚♟♖♘♗♕♔♙") -> ~ In c (board_text unicode)).
Proof.
  unfold board_text. rewrite TextFacts.sub_chr.
  match goal with
  | |- context [translate ?tbl ?x] => generalize x; intros text
  end.
  split.
  - intros H. apply in_flat_map in H as (d & _ & Hd).
    destruct (d =? NL)%N eqn:E.
    + vm_compute in Hd. destruct Hd as [Hd|[Hd|[]]]; discriminate.
    + destruct Hd as [Hd|[]]. rewrite Hd, N.eqb_refl in E. discriminate.
  - intros c Hc H. apply in_flat_map in H as (d & Hin & Hd).
    pose proof (TextFacts.no_glyph_below Hc) as Hbig.
    assert (Hcd : c = d).
    { destruct (d =? NL)%N.
      - exfalso. vm_compute in Hd. destruct Hd as [<-|[<-|[]]]; now apply Hbig.
      - now destruct Hd as [<-|[]]. }
    subst d. unfold translate in Hin. apply in_map_iff in Hin as (x & Hx & _).
    destruct (trans_lookup x _) as [y|] eqn:Hl.
    + subst y. apply TextFacts.letter_is_no_glyph in Hl.
      apply N.lt_nge in Hl. contradiction.
    + subst x. now apply (TextFacts.glyph_is_key Hc).
Qed.

End BoardText.

Section Replies.

Context {C : ChessLib} {U : UnicodeDb} {E : EngineLib C} {A : ArgLib}.

(** *** The reply to a request *)


End Replies.

Module RequestGrammar.

Import Re ReFacts.

(** every piece of an accepted line *)
Lemma request_anatomy (line : pystr) (m : mstate) :
  search request_re line = Some m ->
  exists skipped c1 t1 o a a' b b' c3 t3 c c' c4 t4 post,
    line = skipped ++ COLON :: c1 :: t1 ++ o ++ a :: a' ++
           DASH :: DASH :: b :: b' ++ COLON :: c3 :: t3 ++
           c :: c' ++ c4 :: t4 ++ NL :: post /\
    (group m 1 = COLON :: c1 :: t1 /\ group m 2 = o /\
     group m 3 = COLON :: c3 :: t3 /\ group m 4 = c4 :: t4) /\
    (forallb nonspace (c1 :: t1) = true /\ forallb dot o = true /\
     forallb space (a :: a') = true /\ forallb space (b :: b') = true /\
     forallb nonspace (c3 :: t3) = true /\ forallb space (c :: c') = true /\
     nonspace c4 = true /\ forallb dot t4 = true).
Proof.
  intros H. apply search_from_sound in H as (sk & suf & -> & H).
  unfold request_re, Plus in H. cbn [sem Lit] in H.
  crunch.
  repeat match goal with
         | H : ?x = _ |- _ => is_var x; subst x
         | H : _ = ?x |- _ => is_var x; subst x
         | _ => progress cbn [rest consumed groups step at_ set_group] in *
         end.
  match goal with
  | |- context [group ?m 1] => set (final := m)
  end.
  match goal with
  | |- context [sk ++ COLON :: ?c1 :: ?t1 ++ ?o ++ ?a :: ?a' ++
                DASH :: DASH :: ?b :: ?b' ++ COLON :: ?c3 :: ?t3 ++
                ?c :: ?c' ++ ?c4 :: ?t4 ++ NL :: ?post] =>
      assert (G1 : group final 1 = COLON :: c1 :: t1) by group_value;
      assert (G2 : group final 2 = o) by group_value;
      assert (G3 : group final 3 = COLON :: c3 :: t3) by group_value;
      assert (G4 : group final 4 = c4 :: t4) by group_value;
      exists sk, c1, t1, o, a, a', b, b', c3, t3, c, c', c4, t4, post
  end.
  split; [reflexivity|]. split; [auto|]. cbn [forallb].
  repeat match goal with H : _ = true |- _ => rewrite H; clear H end.
  cbn [andb]. repeat split.
Qed.

(** X8.  What the four fields of an accepted line look like: the command
    and the payload type are a colon and at least one more character,
    without white space; the options hold no newline; the payload starts
    with a character that is not white space and holds no newline. *)
Theorem request_groups (line : pystr) (m : mstate) :
  search request_re line = Some m ->
  (exists c t, group m 1 = COLON :: c :: t /\ forallb nonspace (c :: t) = true) /\
  forallb dot (group m 2) = true /\
  (exists c t, group m 3 = COLON :: c :: t /\ forallb nonspace (c :: t) = true) /\
  (exists c t, group m 4 = c :: t /\ nonspace c = true /\ forallb dot t = true).
Proof.
  intros H.
  destruct (request_anatomy _ H)
    as (sk & c1 & t1 & o & a & a' & b & b' & c3 & t3 & c & c' & c4 & t4 & post
        & _ & (G1 & G2 & G3 & G4) & (H1 & H2 & _ & _ & H3 & _ & H4 & H5)).
  rewrite G1, G2, G3, G4.
  split; [now exists c1, t1|]. split; [exact H2|].
  split; [now exists c3, t3 | now exists c4, t4].
Qed.

End RequestGrammar.

Module DictValues.

Section DictValues.

Variable V : Type.

Lemma get_None_not_key k (d : Dict.t V) :
  Dict.get k d = None -> ~ In k (Dict.keys d).
Proof.
  induction d as [|[k' v'] d IH]; simpl; [tauto|].
  destruct (str_eqb k' k) eqn:Hk; [discriminate|].
  apply str_eqb_neq in Hk. intros H [H1|H1]; [congruence | now apply IH].
Qed.

Lemma get_In k v (d : Dict.t V) :
  NoDup (Dict.keys d) -> In (k, v) d -> Dict.get k d = Some v.
Proof.
  induction d as [|[k' v'] d IH]; simpl; [tauto|].
  intros Hnd [H|H].
  - injection H as -> ->. now rewrite str_eqb_refl.
  - inversion Hnd as [|? ? Hnot Hnd']; subst.
    destruct (str_eqb k' k) eqn:Hk.
    + apply str_eqb_eq in Hk. subst k'. exfalso. apply Hnot.
      change k with (fst (k, v)). now apply in_map.
    + now apply IH.
Qed.

(** after an assignment every entry is the new one or an old one under
    another key *)
Lemma In_set k v p x (d : Dict.t V) :
  NoDup (Dict.keys d) ->
  In (k, v) (Dict.set p x d) ->
  (k = p /\ v = x) \/ (k <> p /\ In (k, v) d).
Proof.
  induction d as [|[k' v'] d IH]; simpl.
  - intros _ [[= <- <-]|[]]. now left.
  - intros Hnd. inversion Hnd as [|? ? Hnot Hnd']; subst.
    destruct (str_eqb k' p) eqn:Hk.
    + apply str_eqb_eq in Hk. subst k'.
      intros [[= <- <-]|H]; [now left|].
      right. split; [|now right].
      intros ->. apply Hnot. change p with (fst (p, v)). now apply in_map.
    + apply str_eqb_neq in Hk.
      intros [[= <- <-]|H].
      * right. split; [exact Hk | now left].
      * destruct (IH Hnd' H) as [?|[? ?]]; [now left|].
        right. split; [assumption | now right].
Qed.

End DictValues.

End DictValues.

Section Replaced.

Context {C : ChessLib} {U : UnicodeDb} {E : EngineLib C} {A : ArgLib}.

(** X13.  A handle that fails the probe is replaced and forgotten: the
    call that replaces it does not ask it to quit, and, the pool holding
    it under this one path only, it is no longer among the handles of
    the pool -- the ones [cleanup] will ask. *)
Theorem replaced_handle_forgotten (path : pystr) (s : state)
        (h0 h : Handle) (w w' : World) :
  NoDup (Dict.keys (ENGINES s)) ->
  Dict.get path (ENGINES s) = Some h0 ->
  (forall k, In (k, h0) (ENGINES s) -> k = path) ->
  ping h0 (world s) = (false, w) ->
  popen_uci path w = (Some h, w') ->
  h <> h0 ->
  let s' := snd (instantiate_engine path s) in
  fst (instantiate_engine path s) = Ret h /\
  trace s' = trace s ++ [EvPing h0 false; EvPopen path (Some h)] /\
  ~ In h0 (Dict.values (ENGINES s')) /\
  ~ In h0 (Dict.values (ENGINES (snd (cleanup s')))).
Proof.
  intros Hnd Hg Honce Hp Hpo Hne.
  assert (Hrun : instantiate_engine path s =
                 (Ret h, State (Dict.set path h (ENGINES s)) (stdout s)
                               (stderr s) (atexit s) w'
                               ((trace s ++ [EvPing h0 false])
                                  ++ [EvPopen path (Some h)]))).
  { rewrite instantiate_engine_unfold. cbv zeta. rewrite Hg.
    unfold bind, try_except, engines_get. rewrite Hg.
    unfold do_ping. rewrite Hp. unfold do_popen_uci.
    cbn [with_world world]. rewrite Hpo.
    unfold engines_set. cbn [with_world ENGINES].
    now rewrite DictFacts.get_set_same. }
  cbv zeta. rewrite Hrun. cbn [fst snd trace ENGINES].
  assert (Hgone : ~ In h0 (Dict.values (Dict.set path h (ENGINES s)))).
  { unfold Dict.values. intros Hin.
    apply in_map_iff in Hin as ([k v] & Hv & Hin). cbn [snd] in Hv. subst v.
    apply DictValues.In_set in Hin as [[_ Heq]|[Hk Hin]]; [congruence| |exact Hnd].
    apply Hk. now apply Honce. }
  split; [reflexivity|]. split; [now rewrite <- app_assoc|].
  split; [exact Hgone|].
  now destruct (cleanup_frame
                  (State (Dict.set path h (ENGINES s)) (stdout s) (stderr s)
                         (atexit s) w'
                         ((trace s ++ [EvPing h0 false])
                            ++ [EvPopen path (Some h)]))) as (-> & _).
Qed.

End Replaced.

Module Accept.

Import Re ReFacts.

(** greedy repetition, when the longest run works *)
Lemma star_greedy_first (R : Type) p (k : pystr -> pystr -> option R) r a b :
  forallb p a = true ->
  match b with [] => True | c :: _ => p c = false end ->
  forall pre,
    k (rev a ++ pre) b = Some r ->
    star_greedy p k pre (a ++ b) = Some r.
Proof.
  intros Ha Hb. induction a as [|x a IH]; intros pre Hk.
  - cbn [app rev] in *. destruct b as [|c t]; [exact Hk|].
    cbn [star_greedy]. now rewrite Hb.
  - cbn [forallb] in Ha. apply andb_true_iff in Ha as [Hx Ha].
    cbn [app star_greedy]. rewrite Hx.
    rewrite (IH Ha (x :: pre)); [reflexivity|].
    cbn [rev] in Hk. now rewrite <- app_assoc in Hk.
Qed.

(** lazy repetition, when nothing shorter works *)
Lemma star_lazy_first (R : Type) p (k : pystr -> pystr -> option R) r b a :
  forallb p a = true ->
  forall pre,
    (forall a1 a2, a = a1 ++ a2 -> a2 <> [] ->
                   k (rev a1 ++ pre) (a2 ++ b) = None) ->
    k (rev a ++ pre) b = Some r ->
    star_lazy p k pre (a ++ b) = Some r.
Proof.
  induction a as [|x a IH]; intros Ha pre Hfail Hk.
  - cbn [app rev] in *. destruct b; cbn [star_lazy]; now rewrite Hk.
  - cbn [forallb] in Ha. apply andb_true_iff in Ha as [Hx Ha].
    pose proof (Hfail [] (x :: a) eq_refl) as H0.
    cbn [app rev] in H0. cbn [app star_lazy].
    rewrite H0 by discriminate.
    rewrite Hx. apply IH; auto.
    + intros a1 a2 -> Hne.
      specialize (Hfail (x :: a1) a2 eq_refl Hne).
      cbn [rev] in Hfail. now rewrite <- app_assoc in Hfail.
    + cbn [rev] in Hk. now rewrite <- app_assoc in Hk.
Qed.

Lemma dropwhile_app_stop p l r c t :
  Spec.dropwhile p l = c :: t -> Spec.dropwhile p (l ++ r) = c :: t ++ r.
Proof.
  induction l as [|x l IH]; cbn [Spec.dropwhile app]; [discriminate|].
  destruct (p x); [exact IH|]. now intros [= <- <-].
Qed.

(** a text that ends in a character outside the class has some of it left
    after the class is dropped from its front *)
Lemma dropwhile_last p l y :
  p y = false -> exists c t, Spec.dropwhile p (l ++ [y]) = c :: t /\ p c = false.
Proof.
  intros Hy. induction l as [|x l IH]; cbn [app Spec.dropwhile].
  - rewrite Hy. eauto.
  - destruct (p x) eqn:Hx; [exact IH | eauto].
Qed.


Lemma space_not_dash c : space c = true -> (c =? DASH)%N = false.
Proof.
  intros H. destruct (c =? DASH)%N eqn:E; [|reflexivity].
  apply N.eqb_eq in E. subst c. discriminate.
Qed.

(** the separator and what follows cannot start inside plain options *)
Lemma separator_fails (R : Type) (tail : regex) (k : mstate -> option R)
      (st : mstate) (a2 after : pystr) :
  (forall (k' : mstate -> option R) st' t,
      rest st' = DASH :: t -> run tail k' st' = None) ->
  rest st = a2 ++ SPACE :: DASH :: DASH :: SPACE :: after ->
  (exists l y, a2 = l ++ [y] /\ nonspace y = true) ->
  (forall l v r, a2 = l ++ DASH :: DASH :: v :: r -> space v = false) ->
  run (Seq (Plus space) (Seq (Lit [DASH; DASH]) (Seq (Plus space) tail))) k st
  = None.
Proof.
  intros Htail Hrest (l & y & Ha2 & Hy) Hdd.
  unfold Plus. cbn [run Lit]. rewrite Hrest.
  destruct a2 as [|x b1].
  { destruct l; discriminate. }
  cbn [app]. destruct (space x) eqn:Hx; [|reflexivity].
  cbn [step consumed rest].
  rewrite star_greedy_commit.
  2:{ intros pre c t Hc. cbn [at_ rest]. now rewrite (space_not_dash _ Hc). }
  assert (Hb1 : exists l1, b1 = l1 ++ [y]).
  { destruct l as [|x' l1].
    - injection Ha2 as -> ->. unfold nonspace in Hy. rewrite Hx in Hy.
      discriminate.
    - injection Ha2 as _ ->. now exists l1. }
  destruct Hb1 as (l1 & Hb1).
  assert (Hyf : space y = false) by (unfold nonspace in Hy; now apply negb_true_iff).
  destruct (@dropwhile_last space l1 y Hyf) as (c0 & t0 & Hd & Hc0).
  rewrite <- Hb1 in Hd.
  rewrite (@dropwhile_app_stop space b1 (SPACE :: DASH :: DASH :: SPACE :: after) c0 t0 Hd). cbn [at_ rest app].
  destruct (c0 =? DASH)%N eqn:E0; [|reflexivity].
  apply N.eqb_eq in E0. subst c0. cbn [step rest consumed].
  destruct t0 as [|z t1]; [reflexivity|]. cbn [app].
  destruct (z =? DASH)%N eqn:E1; [|reflexivity].
  apply N.eqb_eq in E1. subst z. cbn [step rest consumed].
  destruct t1 as [|v t2].
  - cbn [app]. replace (space SPACE) with true by reflexivity.
    cbn [step rest consumed star_greedy].
    replace (space DASH) with false by reflexivity.
    now apply Htail with (t := DASH :: SPACE :: after).
  - cbn [app].
    rewrite (Hdd (x :: Spec.takewhile space b1) v t2); [reflexivity|].
    cbn [app]. f_equal.
    rewrite <- (take_drop space b1) at 1. now rewrite Hd.
Qed.


Section Steps.

Variable R : Type.
Variable k : mstate -> option R.

Lemma run_seq r1 r2 st : run (Seq r1 r2) k st = run r1 (run r2 k) st.
Proof. reflexivity. Qed.

Lemma run_group n r st :
  run (Group n r) k st =
  run r (fun st' => k (set_group n (between st st') st')) st.
Proof. reflexivity. Qed.

Lemma run_chr c st t :
  rest st = c :: t -> run (Chr c) k st = k (step c t st).
Proof. intros H. cbn [run]. now rewrite H, N.eqb_refl. Qed.

Lemma run_cls p st x t :
  rest st = x :: t -> p x = true -> run (Cls p) k st = k (step x t st).
Proof. intros H Hx. cbn [run]. now rewrite H, Hx. Qed.

Lemma run_star_first p st a b r :
  rest st = a ++ b -> forallb p a = true ->
  match b with [] => True | c :: _ => p c = false end ->
  k (at_ (rev a ++ consumed st) b st) = Some r ->
  run (Star p) k st = Some r.
Proof.
  intros H Ha Hb Hk. cbn [run]. rewrite H.
  now apply star_greedy_first.
Qed.

Lemma run_lazy_first p st a b r :
  rest st = a ++ b -> forallb p a = true ->
  (forall a1 a2, a = a1 ++ a2 -> a2 <> [] ->
                 k (at_ (rev a1 ++ consumed st) (a2 ++ b) st) = None) ->
  k (at_ (rev a ++ consumed st) b st) = Some r ->
  run (StarLazy p) k st = Some r.
Proof.
  intros H Ha Hf Hk. cbn [run]. rewrite H.
  now apply star_lazy_first.
Qed.

End Steps.

Ltac here := cbn [rest step at_ set_group app]; reflexivity.

Lemma canonical_match c1 t1 opts c3 t3 c4 t4 :
  forallb nonspace (c1 :: t1) = true ->
  plain_options opts ->
  forallb nonspace (c3 :: t3) = true ->
  nonspace c4 = true -> forallb dot t4 = true ->
  exists m,
    match_at false request_re []
      ((COLON :: c1 :: t1) ++ opts ++ [SPACE; DASH; DASH; SPACE] ++
       (COLON :: c3 :: t3) ++ [SPACE] ++ (c4 :: t4) ++ [NL]) = Some m /\
    group m 1 = COLON :: c1 :: t1 /\ group m 2 = opts /\
    group m 3 = COLON :: c3 :: t3 /\ group m 4 = c4 :: t4.
Proof.
  intros H1 (Hdot & Hends & Hdd) H3 Hc4 Ht4.
  cbn [forallb] in H1, H3.
  apply andb_true_iff in H1 as [Hc1 Ht1].
  apply andb_true_iff in H3 as [Hc3 Ht3].
  assert (Hsp : space SPACE = true) by reflexivity.
  assert (Hhead : match opts ++ SPACE :: DASH :: DASH :: SPACE :: COLON :: c3
                        :: t3 ++ SPACE :: c4 :: t4 ++ [NL] with
                  | [] => True | c :: _ => nonspace c = false end).
  { destruct Hends as [->|((x & l & -> & Hx) & _)]; cbn [app];
      unfold nonspace; [reflexivity | now rewrite Hx]. }
  eexists. split.
  - unfold match_at, request_re, Plus. cbn [Lit app].
    rewrite run_seq, run_group, run_seq.
    erewrite run_chr by here. rewrite run_seq.
    erewrite run_cls; [|here|exact Hc1].
    eapply run_star_first with (a := t1); [here | exact Ht1 | exact Hhead |].
    cbv beta.
    (* the options *)
    rewrite run_seq, run_group.
    eapply run_lazy_first with (a := opts); [here | exact Hdot | |].
    { intros a1 a2 Ha Hne. cbv beta.
      eapply separator_fails.
      - intros k' st' t Hr. rewrite run_seq, run_group, run_seq.
        cbn [run]. now rewrite Hr.
      - cbn [rest at_ set_group]. reflexivity.
      - destruct Hends as [->|(_ & l & y & Hl & Hy)].
        + destruct a1; destruct a2; discriminate || congruence.
        + destruct (exists_last Hne) as (l2 & y2 & ->).
          rewrite Ha, app_assoc in Hl. apply app_inj_tail in Hl as [_ ->].
          now exists l2, y.
      - intros l v r Hl. apply (Hdd (a1 ++ l) v r).
        now rewrite Ha, Hl, <- app_assoc. }
    cbv beta.
    (* the separator *)
    rewrite run_seq, run_seq.
    erewrite run_cls; [|here|exact Hsp].
    eapply run_star_first with (a := []); [here | reflexivity | reflexivity |].
    rewrite run_seq, run_seq.
    erewrite run_chr by here. erewrite run_chr by here.
    rewrite run_seq, run_seq.
    erewrite run_cls; [|here|exact Hsp].
    eapply run_star_first with (a := []); [here | reflexivity | reflexivity |].
    (* the payload type *)
    rewrite run_seq, run_group, run_seq.
    erewrite run_chr by here. rewrite run_seq.
    erewrite run_cls; [|here|exact Hc3].
    eapply run_star_first with (a := t3); [here | exact Ht3 | reflexivity |].
    cbv beta.
    rewrite run_seq, run_seq.
    erewrite run_cls; [|here|exact Hsp].
    eapply run_star_first with (a := []); [here | reflexivity | |].
    { unfold nonspace in Hc4. now apply negb_true_iff in Hc4. }
    (* the payload *)
    rewrite run_seq, run_group, run_seq.
    erewrite run_cls; [|here|exact Hc4].
    eapply run_star_first with (a := t4); [here | exact Ht4 | reflexivity |].
    cbv beta.
    erewrite run_chr by here.
    cbn [andb]. reflexivity.
  - repeat split; group_value.
Qed.


Lemma search_here r s m :
  match_at false r [] s = Some m -> search r s = Some m.
Proof.
  intros H. unfold search. destruct s; cbn [search_from]; now rewrite H.
Qed.

(** X9.  A line written the way the protocol says is accepted, and its
    four parts are the four groups. *)
Theorem canonical_request_accepted c1 t1 opts c3 t3 c4 t4 :
  forallb nonspace (c1 :: t1) = true -> plain_options opts ->
  forallb nonspace (c3 :: t3) = true ->
  nonspace c4 = true -> forallb dot t4 = true ->
  exists m,
    search request_re
      ((COLON :: c1 :: t1) ++ opts ++ [SPACE; DASH; DASH; SPACE] ++
       (COLON :: c3 :: t3) ++ [SPACE] ++ (c4 :: t4) ++ [NL]) = Some m /\
    group m 1 = COLON :: c1 :: t1 /\ group m 2 = opts /\
    group m 3 = COLON :: c3 :: t3 /\ group m 4 = c4 :: t4.
Proof.
  intros H1 Ho H3 H4 H5.
  destruct (@canonical_match c1 t1 opts c3 t3 c4 t4 H1 Ho H3 H4 H5) as (m & Hm & Hg).
  exists m. split; [now apply search_here | exact Hg].
Qed.

End Accept.

Section OnSampleMore.

#[local] Existing Instance Sample.chess.
#[local] Existing Instance Sample.unicode.
#[local] Existing Instance Sample.engines.
#[local] Existing Instance Sample.args.

Ltac by_evaluation := vm_compute; reflexivity.

Lemma malformed_line_dropped_witness :
  exists out err,
    listen_body generate_argparser (Sample.line "hello") Sample.start =
    (Ret Continue, printed Sample.start out err) /\
    (out = [] \/
     exists m e, Re.search request_re (Sample.line "hello") = Some m /\
                 parse_options generate_argparser (Re.group m 2) = Exited out e) /\
    (err = [] <-> Sample.line "hello" = [NL]).
Proof.
  apply (@malformed_line_dropped Sample.chess Sample.unicode Sample.engines
                                 Sample.args (Sample.line "hello") Sample.start).
  - vm_compute. discriminate.
  - intros (m & handler & args & Hs & _). vm_compute in Hs. discriminate.
Defined.



Lemma listen_body_raises_witness :
  let s' := snd (listen_body generate_argparser Sample.header_line
                             Sample.start) in
  exists m handler args,
    well_formed Sample.header_line m handler args /\
    ((read_game (pgn_text (Re.group m 4)) = None /\
      ValueError = AttributeError /\ s' = Sample.start) \/
     (exists game,
         read_game (pgn_text (Re.group m 4)) = Some game /\
         let logged := printed Sample.start [] (game_errors game) in
         (game_board game = None /\ ValueError = ValueError /\ s' = logged) \/
         (game_board game <> None /\
          Re.group m 1 = py ":pgn-to-score" /\
          (ValueError = EngineError \/ ValueError = KeyError) /\
          same_streams logged s'))).
Proof.
  apply (@listen_body_raises Sample.chess Sample.unicode Sample.engines
                             Sample.args Sample.header_line Sample.start
                             ValueError).
  by_evaluation.
Defined.

Lemma version_flag_only_witness :
  run_process [py "pygn_server.py"; py "--version"] [Sample.fen_line]
              Sample.start =
  (Raise (SystemExit 0), printed Sample.start [__version__] []).
Proof.
  apply (@version_flag_only Sample.chess Sample.unicode Sample.engines
                            Sample.args); by_evaluation.
Defined.

(** an exception out of the loop with an engine running, and the end of
    input *)
Lemma exit_quits_every_engine_witness :
  let argv := [py "pygn_server.py"] in
  (let stdin := [Sample.score_line; Sample.blank_line; Sample.fen_line] in
   fst (run_process argv stdin Sample.start) = Raise AttributeError /\
   hangs (snd (main argv stdin Sample.start)) = true /\
   snd (run_process argv stdin Sample.start)
     = snd (main argv stdin Sample.start) /\
   quit_requests (trace (snd (run_process argv stdin Sample.start))) = []) /\
  (let stdin := [Sample.score_line] in
   fst (run_process argv stdin Sample.start) = Ret tt /\
   hangs (snd (main argv stdin Sample.start)) = false /\
   snd (run_process argv stdin Sample.start)
     = snd (cleanup (snd (main argv stdin Sample.start))) /\
   quit_requests (trace (snd (run_process argv stdin Sample.start)))
     = [0%nat; 0%nat]).
Proof.
  intros argv. split; intros stdin.
  - destruct (@exit_quits_every_engine Sample.chess Sample.unicode
                Sample.engines Sample.args argv stdin Sample.start)
      as (Hr & Hhang & _); [by_evaluation | by_evaluation |].
    split; [by_evaluation|]. split; [by_evaluation|].
    split; [apply Hhang; by_evaluation | by_evaluation].
  - destruct (@exit_quits_every_engine Sample.chess Sample.unicode
                Sample.engines Sample.args argv stdin Sample.start)
      as (Hr & _ & Hexit); [by_evaluation | by_evaluation |].
    split; [by_evaluation|]. split; [by_evaluation|].
    split; [apply Hexit; by_evaluation | by_evaluation].
Defined.

Lemma escape_unescape_round_trip_witness :
  Re.sub (Re.Lit [BACKSLASH; LOWER_N]) [Re.TLit [NL]]
         (Re.sub (Re.Chr NL) [Re.TLit (py "\n")]
                 (py "r n b q" ++ [NL] ++ py "p p \ p")) =
  py "r n b q" ++ [NL] ++ py "p p \ p".
Proof.
  apply TextFacts.escape_unescape_round_trip.
  intros a b H.
  apply (f_equal (Spec.infix_b [BACKSLASH; LOWER_N])) in H.
  change (a ++ BACKSLASH :: LOWER_N :: b)
    with (a ++ [BACKSLASH; LOWER_N] ++ b) in H.
  rewrite infix_b_complete in H. vm_compute in H. discriminate.
Defined.

Lemma request_groups_witness :
  let m := Sample.matched Sample.tabbed_line in
  (exists c t, Re.group m 1 = COLON :: c :: t /\
               forallb Re.nonspace (c :: t) = true) /\
  forallb Re.dot (Re.group m 2) = true /\
  (exists c t, Re.group m 3 = COLON :: c :: t /\
               forallb Re.nonspace (c :: t) = true) /\
  (exists c t, Re.group m 4 = c :: t /\ Re.nonspace c = true /\
               forallb Re.dot t = true).
Proof.
  apply (@RequestGrammar.request_groups Sample.tabbed_line). by_evaluation.
Defined.

Lemma double_dash_options :
  plain_options (py " --pixels 200").
Proof.
  split; [by_evaluation|]. split.
  - right. split.
    + exists SPACE, (py "--pixels 200"). split; by_evaluation.
    + exists (py " --pixels 20"), 48%N. split; by_evaluation.
  - intros l v r H.
    change (py " --pixels 200") with
      (ltac:(let t := eval vm_compute in (py " --pixels 200") in exact t))
      in H.
    repeat (destruct l as [|? l];
            [ cbn [app] in H;
              first [discriminate H | inversion H; subst; reflexivity]
            | cbn [app] in H;
              first [discriminate H | injection H as _ H] ]).
Defined.

Lemma canonical_request_accepted_witness :
  exists m,
    Re.search request_re
      (py ":pgn-to-board" ++ py " --pixels 200" ++ [SPACE; DASH; DASH; SPACE]
          ++ py ":pgn" ++ [SPACE] ++ py "1. e4 e5" ++ [NL]) = Some m /\
    Re.group m 1 = py ":pgn-to-board" /\ Re.group m 2 = py " --pixels 200" /\
    Re.group m 3 = py ":pgn" /\ Re.group m 4 = py "1. e4 e5".
Proof.
  apply (@Accept.canonical_request_accepted
           112%N (py "gn-to-board") (py " --pixels 200")
           112%N (py "gn") 49%N (py ". e4 e5")).
  - by_evaluation.
  - exact double_dash_options.
  - by_evaluation.
  - by_evaluation.
  - by_evaluation.
Defined.

Lemma engine_reused_witness :
  let s1 := snd (instantiate_engine (py "stockfish") Sample.start) in
  instantiate_engine (py "stockfish") s1 =
  (Ret 0%nat, with_world (world s1) (EvPing 0%nat true) s1).
Proof.
  apply (@engine_reused Sample.chess Sample.engines
                        (py "stockfish") Sample.start 0%nat
                        (snd (instantiate_engine (py "stockfish")
                                                 Sample.start)));
    by_evaluation.
Defined.


Lemma pool_touched_only_by_score_witness :
  exists m handler args,
    well_formed Sample.score_line m handler args /\
    Re.group m 1 = py ":pgn-to-score" /\ engine args = py "stockfish".
Proof.
  apply (@pool_touched_only_by_score Sample.chess Sample.unicode
                                     Sample.engines Sample.args
                                     Sample.score_line Sample.start
                                     (py "stockfish")).
  vm_compute. discriminate.
Defined.

Lemma replaced_handle_forgotten_witness :
  let s' := snd (instantiate_engine (py "stockfish") Sample.crashed) in
  fst (instantiate_engine (py "stockfish") Sample.crashed) = Ret 1%nat /\
  trace s' = trace Sample.crashed ++
             [EvPing 0%nat false; EvPopen (py "stockfish") (Some 1%nat)] /\
  ~ In 0%nat (Dict.values (ENGINES s')) /\
  ~ In 0%nat (Dict.values (ENGINES (snd (cleanup s')))).
Proof.
  apply (@replaced_handle_forgotten
           Sample.chess Sample.engines
           (py "stockfish") Sample.crashed 0%nat 1%nat
           (Sample.World_ 1 1) (Sample.World_ 2 1)).
  - vm_compute. repeat constructor. intros [].
  - by_evaluation.
  - intros k [H|[]]. now injection H as <-.
  - by_evaluation.
  - by_evaluation.
  - discriminate.
Defined.

End OnSampleMore.
